(** * Huffman coding (Assignment.cpp): a shallow embedding and its properties

    The development follows the source file class by class:
    [Node]/[FrequencyTable] (the linked-list frequency table),
    [HuffmanNode] (tree nodes), [PriorityQueue] (the vector-backed binary
    min-heap) and [HuffmanTree] (tree construction, code generation,
    encoding and decoding).

    Modelling conventions.
    - [char] is [ascii]; a [std::string] is a [list ascii] ([cstring]).
    - [int] is a [Z] in the 32-bit two's-complement range; additions go
      through [int_add], which writes the wrap-around out.
    - [vector<HuffmanNode*>] is a [list HuffmanNode] read with [!!] and
      written with [<[_:=_]>].  Its elements all come from [new], so they are
      never null; a nullable [HuffmanNode*] (a child link, the root, the
      result of [pop]) is an [option HuffmanNode].  Heap indices are the
      non-negative [int]s of the source, kept as [nat].
    - [unordered_map<char,string>] is a [gmap ascii cstring].
    - Dereferencing a null pointer is the outcome [NullDeref]. *)

From Stdlib Require Import ZArith Ascii String Sorted.
From stdpp Require Import base tactics option list gmap strings pretty.

Local Open Scope Z_scope.

(** ** Strings and machine integers *)

Abbreviation cstring := (list ascii).

(** Literal strings, for examples. *)
Definition str (s : string) : cstring := list_ascii_of_string s.

Definition INT_MIN : Z := - 2 ^ 31.
Definition INT_MAX : Z := 2 ^ 31 - 1.

(** Reduction of an integer to the range of a 32-bit [int]. *)
Definition wrap (z : Z) : Z := (z + 2 ^ 31) mod 2 ^ 32 - 2 ^ 31.

Definition int_add (a b : Z) : Z := wrap (a + b).

(** ** Outcomes of the operations that dereference pointers or loop *)

Inductive outcome (A : Type) : Type :=
| Done (a : A)
| NullDeref
| OutOfFuel.
Arguments Done {A} a.
Arguments NullDeref {A}.
Arguments OutOfFuel {A}.

(** ** class Node: one cell of the frequency list

    The [next] link is the list structure itself. *)

Record Node : Type := mkNode { getChar : ascii; getFreq : Z }.

Definition setfreq (n : Node) (f : Z) : Node :=
  {| getChar := getChar n; getFreq := f |}.

(** ** class FrequencyTable *)

Record FrequencyTable : Type := mkFrequencyTable {
  head : list Node;
  huffmanString : cstring
}.

(** The constructor: [head = nullptr], default-constructed string. *)
Definition newFrequencyTable : FrequencyTable :=
  {| head := []; huffmanString := [] |}.

Definition sethuffmanString (s : cstring) (t : FrequencyTable) : FrequencyTable :=
  {| head := head t; huffmanString := s |}.

Definition isEmpty (t : FrequencyTable) : bool :=
  match head t with [] => true | _ :: _ => false end.

(** The inner [while (temp != nullptr)] scan of [MakeTable]: increments the
    cell holding [Character]; [None] is [found == false]. *)
Fixpoint scan (Character : ascii) (temp : list Node) : option (list Node) :=
  match temp with
  | [] => None
  | n :: rest =>
      if bool_decide (getChar n = Character)
      then Some (setfreq n (int_add (getFreq n) 1) :: rest)
      else match scan Character rest with
           | Some rest' => Some (n :: rest')
           | None => None
           end
  end.

(** One iteration of the [for] loop of [MakeTable]: a character that is not
    found gets a fresh cell with frequency 1, linked after the last cell. *)
Definition count_char (cells : list Node) (Character : ascii) : list Node :=
  match scan Character cells with
  | Some cells' => cells'
  | None => cells ++ [mkNode Character 1]
  end.

Definition msg_empty : cstring := str "
Error! Huffman String is Empty!".
Definition msg_populated : cstring := str "
Table is already populated!".

(** [MakeTable] returns the new state of the table and the text it writes
    to [cout].  The [for] loop runs its [int i] over the positions of the
    string; the fold below is that loop for the strings whose length fits an
    [int] (at most [INT_MAX] characters), where [i] reaches every position
    and never overflows.  The theorems about a table built from an input
    carry this bound on the input. *)
Definition MakeTable (t : FrequencyTable) : FrequencyTable * cstring :=
  if isEmpty t then
    match huffmanString t with
    | [] => (t, msg_empty)
    | _ :: _ =>
        ({| head := foldl count_char (head t) (huffmanString t);
            huffmanString := huffmanString t |}, [])
    end
  else (t, msg_populated).

(** What [main] does with each line it reads. *)
Definition feed (t : FrequencyTable) (s : cstring) : FrequencyTable :=
  (MakeTable (sethuffmanString s t)).1.

(** ** struct HuffmanNode *)

Local Unset Elimination Schemes.
Inductive HuffmanNode : Type :=
  mkHuffmanNode (Character : ascii) (freq : Z) (left right : option HuffmanNode).
Local Set Elimination Schemes.

Definition Character (n : HuffmanNode) : ascii :=
  match n with mkHuffmanNode c _ _ _ => c end.
Definition freq (n : HuffmanNode) : Z :=
  match n with mkHuffmanNode _ f _ _ => f end.
Definition left (n : HuffmanNode) : option HuffmanNode :=
  match n with mkHuffmanNode _ _ l _ => l end.
Definition right (n : HuffmanNode) : option HuffmanNode :=
  match n with mkHuffmanNode _ _ _ r => r end.

(** The constructor [HuffmanNode(char C, int f)]. *)
Definition newHuffmanNode (C : ascii) (f : Z) : HuffmanNode :=
  mkHuffmanNode C f None None.

(** The test [!node->left && !node->right]. *)
Definition is_leaf (n : HuffmanNode) : bool :=
  match left n, right n with
  | None, None => true
  | _, _ => false
  end.

(** Induction over a tree through its nullable child links. *)
Fixpoint HuffmanNode_tree_ind (P : HuffmanNode → Prop)
    (IH : ∀ c f l r,
        (∀ x, l = Some x → P x) → (∀ x, r = Some x → P x) →
        P (mkHuffmanNode c f l r))
    (n : HuffmanNode) : P n :=
  match n with
  | mkHuffmanNode c f l r =>
      IH c f l r
        (match l return ∀ x, l = Some x → P x with
         | Some a => fun x E =>
             eq_ind a P (HuffmanNode_tree_ind P IH a) x
                    (f_equal (default a) E)
         | None => fun x E =>
             False_ind _ (eq_ind None (fun o => match o with Some _ => False | None => True end) I _ E)
         end)
        (match r return ∀ x, r = Some x → P x with
         | Some a => fun x E =>
             eq_ind a P (HuffmanNode_tree_ind P IH a) x
                    (f_equal (default a) E)
         | None => fun x E =>
             False_ind _ (eq_ind None (fun o => match o with Some _ => False | None => True end) I _ E)
         end)
  end.

(** ** class PriorityQueue

    The state of the object is its public member [queue]. *)

Module PriorityQueue.

(** The comparison [queue[i]->freq < queue[j]->freq].  Every call site is
    guarded so that both indices are in range. *)
Definition freq_lt (queue : list HuffmanNode) (i j : nat) : bool :=
  match queue !! i, queue !! j with
  | Some a, Some b => bool_decide (freq a < freq b)
  | _, _ => false
  end.

(** [swap(queue[i], queue[j])], again only used in range. *)
Definition swap (queue : list HuffmanNode) (i j : nat) : list HuffmanNode :=
  match queue !! i, queue !! j with
  | Some a, Some b => <[j:=a]> (<[i:=b]> queue)
  | _, _ => queue
  end.

(** The [while (index > 0)] loop of [heapifyUp].  The index strictly
    decreases, so [index] iterations are enough ([heapifyUp_unfold]). *)
Fixpoint heapifyUp_fuel (fuel : nat) (queue : list HuffmanNode) (index : nat)
    : list HuffmanNode :=
  match fuel with
  | O => queue
  | S fuel' =>
      if bool_decide (0 < index)%nat then
        let parent := ((index - 1) / 2)%nat in
        if freq_lt queue index parent
        then heapifyUp_fuel fuel' (swap queue index parent) parent
        else queue
      else queue
  end.

Definition heapifyUp (queue : list HuffmanNode) (index : nat) : list HuffmanNode :=
  heapifyUp_fuel index queue index.

(** The choice of [smallest] made by one call of [heapifyDown]. *)
Definition pick_smallest (queue : list HuffmanNode) (index : nat) : nat :=
  let smallest := index in
  let left := (2 * index + 1)%nat in
  let right := (2 * index + 2)%nat in
  let smallest :=
    if bool_decide (left < length queue)%nat && freq_lt queue left smallest
    then left else smallest in
  let smallest :=
    if bool_decide (right < length queue)%nat && freq_lt queue right smallest
    then right else smallest in
  smallest.

(** The recursion of [heapifyDown].  Each call moves to a larger index
    below [queue.size()], so [length queue] calls are enough
    ([heapifyDown_unfold]). *)
Fixpoint heapifyDown_fuel (fuel : nat) (queue : list HuffmanNode) (index : nat)
    : list HuffmanNode :=
  match fuel with
  | O => queue
  | S fuel' =>
      let smallest := pick_smallest queue index in
      if bool_decide (smallest ≠ index)
      then heapifyDown_fuel fuel' (swap queue index smallest) smallest
      else queue
  end.

Definition heapifyDown (queue : list HuffmanNode) (index : nat) : list HuffmanNode :=
  heapifyDown_fuel (length queue) queue index.

Definition push (queue : list HuffmanNode) (node : HuffmanNode) : list HuffmanNode :=
  let queue := queue ++ [node] in
  heapifyUp queue (length queue - 1).

(** [pop] returns the pointer it hands back ([None] is [nullptr]) and the
    new contents of the queue. *)
Definition pop (queue : list HuffmanNode) : option HuffmanNode * list HuffmanNode :=
  match queue !! 0%nat, last queue with
  | Some root, Some back =>
      let queue := <[0%nat:=back]> queue in
      let queue := take (length queue - 1) queue in
      (Some root, heapifyDown queue 0)
  | _, _ => (None, queue)
  end.

Definition isEmpty (queue : list HuffmanNode) : bool :=
  bool_decide (length queue = 0%nat).

End PriorityQueue.

(** ** class HuffmanTree

    The object holds [root] and [encodedString]; each method below takes the
    members it reads and returns the ones it writes. *)

(** [buildCodes] on a non-null node; [buildCodes_ptr] adds the
    [if (!node) return] of the source. *)
Fixpoint buildCodes (node : HuffmanNode) (code : cstring)
    (codes : gmap ascii cstring) : gmap ascii cstring :=
  match node with
  | mkHuffmanNode C _ l r =>
      let codes :=
        match l, r with
        | None, None => <[C:=code]> codes
        | _, _ => codes
        end in
      let codes :=
        match l with
        | Some n => buildCodes n (code ++ ["0"%char]) codes
        | None => codes
        end in
      match r with
      | Some n => buildCodes n (code ++ ["1"%char]) codes
      | None => codes
      end
  end.

Definition buildCodes_ptr (node : option HuffmanNode) (code : cstring)
    (codes : gmap ascii cstring) : gmap ascii cstring :=
  match node with
  | None => codes
  | Some n => buildCodes n code codes
  end.

(** [codes[c]]: [operator[]] of [unordered_map] inserts a default-constructed
    (empty) string under a key that is absent. *)
Definition subscript (codes : gmap ascii cstring) (c : ascii)
    : cstring * gmap ascii cstring :=
  match codes !! c with
  | Some s => (s, codes)
  | None => ([], <[c:=[]]> codes)
  end.

(** [encodeString]: the state is the member [encodedString] and the table
    passed by reference. *)
Fixpoint encodeString (input : cstring) (encodedString : cstring)
    (codes : gmap ascii cstring) : cstring * gmap ascii cstring :=
  match input with
  | [] => (encodedString, codes)
  | c :: input' =>
      let '(s, codes) := subscript codes c in
      encodeString input' (encodedString ++ s) codes
  end.

(** The first loop of [buildTree]: one leaf per cell, in list order. *)
Definition push_table (pq : list HuffmanNode) (table : list Node) : list HuffmanNode :=
  foldl (fun pq p => PriorityQueue.push pq (newHuffmanNode (getChar p) (getFreq p)))
        pq table.

(** [new HuffmanNode('\0', left->freq + right->freq)] with its two links
    set: the node one iteration of the second loop creates. *)
Abbreviation merged left right :=
  (mkHuffmanNode "000"%char (int_add (freq left) (freq right))
                 (Some left) (Some right)).

(** The second loop of [buildTree], [while (pq.queue.size() > 1)].  Each
    iteration removes two nodes and adds one, so [length pq] iterations are
    enough ([merge_loop_inv], [buildTree_spec]). *)
Fixpoint merge_loop (fuel : nat) (pq : list HuffmanNode) : outcome (list HuffmanNode) :=
  if bool_decide (1 < length pq)%nat then
    match fuel with
    | O => OutOfFuel
    | S fuel' =>
        match PriorityQueue.pop pq with
        | (Some left, pq) =>
            match PriorityQueue.pop pq with
            | (Some right, pq) =>
                merge_loop fuel' (PriorityQueue.push pq (merged left right))
            | (None, _) => NullDeref
            end
        | (None, _) => NullDeref
        end
    end
  else Done pq.

(** [buildTree] returns the new value of [root]. *)
Definition buildTree (table : FrequencyTable) : outcome (option HuffmanNode) :=
  let pq := push_table [] (head table) in
  match merge_loop (length pq) pq with
  | Done pq => Done (PriorityQueue.pop pq).1
  | NullDeref => NullDeref
  | OutOfFuel => OutOfFuel
  end.

Definition generateCodes (root : option HuffmanNode) : gmap ascii cstring :=
  buildCodes_ptr root [] ∅.

(** [encode] clears [encodedString] first, so its result does not depend on
    the previous value of the member. *)
Definition encode (input : cstring) (codes : gmap ascii cstring)
    : cstring * gmap ascii cstring :=
  encodeString input [] codes.

(** The [for (char bit : encoded)] loop of [decode], on the state
    [(current, decoded)]; it returns the final state. *)
Fixpoint decode_loop (root current : option HuffmanNode)
    (encoded decoded : cstring) {struct encoded}
    : outcome (cstring * option HuffmanNode) :=
  match encoded with
  | [] => Done (decoded, current)
  | bit :: encoded' =>
      match current with
      | None => NullDeref
      | Some cur =>
          let current := if bool_decide (bit = "0"%char) then left cur else right cur in
          match current with
          | None => NullDeref
          | Some cur =>
              if is_leaf cur
              then decode_loop root root encoded' (decoded ++ [Character cur])
              else decode_loop root current encoded' decoded
          end
      end
  end.

Definition decode (root : option HuffmanNode) (encoded : cstring) : outcome cstring :=
  match decode_loop root root encoded [] with
  | Done (decoded, _) => Done decoded
  | NullDeref => NullDeref
  | OutOfFuel => OutOfFuel
  end.

(** Steps 1 to 4 of [main] on a fresh table and tree. *)
Record run : Type := mkRun {
  run_table : list Node;
  run_root : option HuffmanNode;
  run_codes : gmap ascii cstring;
  run_encoded : cstring;
  run_decoded : cstring
}.

Definition pipeline (myString : cstring) : outcome run :=
  let table := feed newFrequencyTable myString in
  match buildTree table with
  | Done root =>
      let codes := generateCodes root in
      let '(encoded, codes) := encode myString codes in
      match decode root encoded with
      | Done decoded => Done (mkRun (head table) root codes encoded decoded)
      | NullDeref => NullDeref
      | OutOfFuel => OutOfFuel
      end
  | NullDeref => NullDeref
  | OutOfFuel => OutOfFuel
  end.

(** ** Specification vocabulary *)

(** *** Heap order *)

Definition parent (i : nat) : nat := ((i - 1) / 2)%nat.

(** The weight stored at a position of the queue. *)
Definition key (queue : list HuffmanNode) (i : nat) : Z :=
  match queue !! i with
  | Some a => freq a
  | None => 0
  end.

Definition heap_ordered (queue : list HuffmanNode) : Prop :=
  ∀ j, (0 < j < length queue)%nat → key queue (parent j) ≤ key queue j.

(** The executable form of [heap_ordered]. *)
Definition is_heap (queue : list HuffmanNode) : bool :=
  forallb (fun j => bool_decide (key queue (parent j) ≤ key queue j))
          (seq 1 (length queue - 1)).

(** Heap order everywhere except between [i] and its parent: the state of
    the queue while [heapifyUp] is at index [i]. *)
Definition up_inv (queue : list HuffmanNode) (i : nat) : Prop :=
  (∀ j, (0 < j < length queue)%nat → j ≠ i → key queue (parent j) ≤ key queue j)
  ∧ (∀ j, (0 < j < length queue)%nat → parent j = i → (0 < i)%nat →
       key queue (parent i) ≤ key queue j).

(** Heap order everywhere except between [i] and its children: the state of
    the queue while [heapifyDown] is at index [i]. *)
Definition down_inv (queue : list HuffmanNode) (i : nat) : Prop :=
  (∀ j, (0 < j < length queue)%nat → parent j ≠ i →
       key queue (parent j) ≤ key queue j)
  ∧ (∀ j, (0 < j < length queue)%nat → parent j = i → (0 < i)%nat →
       key queue (parent i) ≤ key queue j).

(** The conjunction of the rules by which [heapifyDown] picks [smallest] at
    index [i]: it stays at [i] exactly when no child in range is strictly
    smaller; otherwise it is a child in range that is no larger than either
    child; and the right child is only picked when it is strictly smaller
    than the left one. *)
Definition sift_choice_ok (queue : list HuffmanNode) (i : nat) : Prop :=
  let l := (2 * i + 1)%nat in
  let r := (2 * i + 2)%nat in
  let s := PriorityQueue.pick_smallest queue i in
  (s = i ↔ ((l < length queue)%nat → key queue i ≤ key queue l)
           ∧ ((r < length queue)%nat → key queue i ≤ key queue r))
  ∧ (s ≠ i → (s = l ∨ s = r) ∧ (s < length queue)%nat
             ∧ key queue s < key queue i
             ∧ ((l < length queue)%nat → key queue s ≤ key queue l)
             ∧ ((r < length queue)%nat → key queue s ≤ key queue r))
  ∧ (s = r → s ≠ i → key queue r < key queue l).

(** *** Sequences of insertions and extractions *)

Definition push_all (xs : list HuffmanNode) : list HuffmanNode :=
  foldl PriorityQueue.push [] xs.

(** The nodes returned by [n] successive calls of [pop]. *)
Fixpoint pop_all (n : nat) (queue : list HuffmanNode) : list HuffmanNode :=
  match n with
  | O => []
  | S n' =>
      match PriorityQueue.pop queue with
      | (Some x, queue') => x :: pop_all n' queue'
      | (None, _) => []
      end
  end.

(** Insert all of [xs], in order, then extract everything. *)
Definition extraction_order (xs : list HuffmanNode) : list HuffmanNode :=
  pop_all (length xs) (push_all xs).

Definition weight_le (a b : HuffmanNode) : Prop := freq a ≤ freq b.

(** The earliest node of minimum weight in a sequence of insertions: a later
    node replaces the current one only when it is strictly lighter. *)
Definition keep_lighter (best : option HuffmanNode) (x : HuffmanNode)
    : option HuffmanNode :=
  match best with
  | None => Some x
  | Some b => if bool_decide (freq x < freq b) then Some x else Some b
  end.

Definition first_min (xs : list HuffmanNode) : option HuffmanNode :=
  foldl keep_lighter None xs.

(** First in, first out among the nodes of minimum weight: they leave the
    queue in the order in which they were inserted. *)
Definition fifo_among_minimum (xs : list HuffmanNode) : Prop :=
  ∀ m, (∀ x, x ∈ xs → m ≤ freq x) →
       filter (fun x => freq x = m) (extraction_order xs)
       = filter (fun x => freq x = m) xs.

(** *** Trees *)

(** The leaves of a tree from left to right, each with the path of bits
    that leads to it ('0' for [left], '1' for [right]). *)
Fixpoint leaf_paths (n : HuffmanNode) : list (ascii * cstring) :=
  match n with
  | mkHuffmanNode C _ l r =>
      match l, r with
      | None, None => [(C, [])]
      | _, _ =>
          match l with
          | Some a => (fun cp => (cp.1, "0"%char :: cp.2)) <$> leaf_paths a
          | None => []
          end ++
          match r with
          | Some b => (fun cp => (cp.1, "1"%char :: cp.2)) <$> leaf_paths b
          | None => []
          end
      end
  end.

(** The leaves of a tree from left to right, each with its weight. *)
Fixpoint leaves (n : HuffmanNode) : list (ascii * Z) :=
  match n with
  | mkHuffmanNode C f l r =>
      match l, r with
      | None, None => [(C, f)]
      | _, _ =>
          match l with Some a => leaves a | None => [] end ++
          match r with Some b => leaves b | None => [] end
      end
  end.

Definition forest_leaves (queue : list HuffmanNode) : list (ascii * Z) :=
  queue ≫= leaves.

(** The entries of a frequency list. *)
Definition cells (table : list Node) : list (ascii * Z) :=
  (fun p => (getChar p, getFreq p)) <$> table.

Definition total (l : list Z) : Z := foldr Z.add 0 l.

(** Every node is a leaf or has two children, and the weight of a node with
    two children is the sum of the weights of its children. *)
Fixpoint weight_conserved (n : HuffmanNode) : bool :=
  match n with
  | mkHuffmanNode _ f l r =>
      match l, r with
      | None, None => true
      | Some a, Some b =>
          bool_decide (f = freq a + freq b)
          && weight_conserved a && weight_conserved b
      | _, _ => false
      end
  end.

(** Every node is a leaf or has two children. *)
Fixpoint full (n : HuffmanNode) : bool :=
  match n with
  | mkHuffmanNode _ _ l r =>
      match l, r with
      | None, None => true
      | Some a, Some b => full a && full b
      | _, _ => false
      end
  end.

(** A tree whose weights add up: the weights are conserved at every node
    and the weight of the root is the total weight of the leaves. *)
Definition tree_ok (n : HuffmanNode) : Prop :=
  weight_conserved n = true ∧ freq n = total (leaves n).*2.

(** The node reached from [n] by following the bits of [p] as [decode]
    does. *)
Fixpoint subtree_at (n : HuffmanNode) (p : cstring) {struct p}
    : option HuffmanNode :=
  match p with
  | [] => Some n
  | bit :: p' =>
      match (if bool_decide (bit = "0"%char) then left n else right n) with
      | Some m => subtree_at m p'
      | None => None
      end
  end.

(** Number of nodes of a tree. *)
Fixpoint nodes (n : HuffmanNode) : nat :=
  match n with
  | mkHuffmanNode _ _ l r =>
      S (match l with Some a => nodes a | None => 0 end
         + match r with Some b => nodes b | None => 0 end)
  end.

(** *** Code tables *)

(** Recording the code [code ++ p] for every leaf of a list of leaf paths,
    in order: what [buildCodes] called with the prefix [code] does to the
    table. *)
Definition record_code (code : cstring) (codes : gmap ascii cstring)
    (cp : ascii * cstring) : gmap ascii cstring :=
  <[cp.1 := code ++ cp.2]> codes.

Definition record_codes (code : cstring) (codes : gmap ascii cstring)
    (paths : list (ascii * cstring)) : gmap ascii cstring :=
  foldl (record_code code) codes paths.

(** No code of the table is a prefix of the code of another symbol. *)
Definition prefix_free (codes : gmap ascii cstring) : Prop :=
  ∀ c1 c2 k1 k2,
    c1 ≠ c2 → codes !! c1 = Some k1 → codes !! c2 = Some k2 → ¬ k1 `prefix_of` k2.

(** The bit-string [encode] produces: the codes of the symbols of [input]
    in sequence, a symbol without an entry contributing nothing. *)
Definition concat_codes (codes : gmap ascii cstring) (input : cstring) : cstring :=
  mjoin ((fun c => default [] (codes !! c)) <$> input).

(** *** Further vocabulary: the table, the session, sequences of operations *)

(** The distinct symbols of a string in the order of their first
    occurrence. *)
Fixpoint first_seen (s : cstring) : cstring :=
  match s with
  | [] => []
  | c :: s' => c :: filter (fun x => x ≠ c) (first_seen s')
  end.

(** How often a symbol occurs in a string. *)
Definition occurrences (c : ascii) (s : cstring) : Z :=
  Z.of_nat (length (filter (fun x => x = c) s)).

(** The count the frequency list holds for a symbol: that of the first
    cell with this symbol, 0 when there is none. *)
Fixpoint count_in (cells : list Node) (c : ascii) : Z :=
  match cells with
  | [] => 0
  | n :: rest => if bool_decide (getChar n = c) then getFreq n else count_in rest c
  end.

(** At every node with two children the left child is no heavier than the
    right one. *)
Fixpoint left_lighter (n : HuffmanNode) : bool :=
  match n with
  | mkHuffmanNode _ _ l r =>
      match l, r with
      | Some a, Some b =>
          bool_decide (freq a ≤ freq b) && left_lighter a && left_lighter b
      | _, _ => true
      end
  end.

(** The two bit characters. *)
Definition is_bit (b : ascii) : Prop := b = "0"%char ∨ b = "1"%char.

(** How [decode] reads a character: '0' is '0', anything else is '1'. *)
Definition as_bit (b : ascii) : ascii :=
  if bool_decide (b = "0"%char) then "0"%char else "1"%char.

(** One pass of [case 1] of [main], steps 1 to 4, on the table [main] keeps
    across passes: the table after the pass and what the pass computed.
    ([hTree] keeps nothing a later pass reads: [buildTree] overwrites [root]
    and [encode] clears [encodedString].) *)
Definition iteration (table : FrequencyTable) (myString : cstring)
    : outcome (FrequencyTable * run) :=
  let table := feed table myString in
  match buildTree table with
  | Done root =>
      let codes := generateCodes root in
      let '(encoded, codes) := encode myString codes in
      match decode root encoded with
      | Done decoded => Done (table, mkRun (head table) root codes encoded decoded)
      | NullDeref => NullDeref
      | OutOfFuel => OutOfFuel
      end
  | NullDeref => NullDeref
  | OutOfFuel => OutOfFuel
  end.

(** A use of the queue: a call of [push] or a call of [pop]. *)
Inductive pq_op : Type :=
| OpPush (node : HuffmanNode)
| OpPop.

Definition run_op (queue : list HuffmanNode) (op : pq_op) : list HuffmanNode :=
  match op with
  | OpPush node => PriorityQueue.push queue node
  | OpPop => (PriorityQueue.pop queue).2
  end.

(** The queue after a sequence of calls on a queue that starts empty. *)
Definition run_ops (ops : list pq_op) : list HuffmanNode :=
  foldl run_op [] ops.

(** *** What [DisplayTable] writes to [cout] *)

(** [endl]. *)
Definition endl : cstring := ["010"%char].

(** [left << setw(w) << s]: the text, then spaces up to the width [w]; a
    text that is wider is written whole. *)
Definition setw_left (w : nat) (s : cstring) : cstring :=
  s ++ replicate (w - length s) " "%char.

(** [operator<<] on an [int]: its decimal digits, with a minus sign when it
    is negative. *)
Definition show_int (z : Z) : cstring := list_ascii_of_string (pretty z).

(** [string(k, '-')]. *)
Definition dashes (k : nat) : cstring := replicate k "-"%char.

Definition msg_table_empty : cstring := str "
Frequency table is empty.
".

(** The line [DisplayTable] writes for one cell. *)
Definition display_row (p : Node) : cstring :=
  setw_left 15 [getChar p] ++ setw_left 15 (show_int (getFreq p)) ++ endl.

(** [TotalFreq] after the loop over the cells. *)
Definition TotalFreq (cells : list Node) : Z :=
  foldl (fun acc p => int_add acc (getFreq p)) 0 cells.

Definition DisplayTable (t : FrequencyTable) : cstring :=
  match head t with
  | [] => msg_table_empty
  | _ :: _ =>
      setw_left 15 (str "Character") ++ setw_left 15 (str "Frequency") ++ endl
      ++ dashes 30 ++ endl
      ++ mjoin (display_row <$> head t)
      ++ dashes 30 ++ endl
      ++ setw_left 15 (str "Total") ++ setw_left 15 (show_int (TotalFreq (head t)))
      ++ endl
  end.

(** *** [isValidChoice]

    [ss >> num] on a [stringstream] over the whole line, as the standard
    library does it for an [int] in the classic locale: leading white space
    is skipped; at the end of the stream nothing is read and the extraction
    fails; otherwise an optional sign and the decimal digits that follow
    are read.  The extraction fails when there is no digit or the value does
    not fit an [int]; [eofbit] is set when reading ran into the end of the
    string. *)

Definition isspace (c : ascii) : bool :=
  bool_decide (c ∈ [" "%char; "009"%char; "010"%char; "011"%char;
                    "012"%char; "013"%char]).

Definition isdigit (c : ascii) : bool :=
  bool_decide (c ∈ ["0"%char; "1"%char; "2"%char; "3"%char; "4"%char;
                    "5"%char; "6"%char; "7"%char; "8"%char; "9"%char]).

Definition digit_value (c : ascii) : Z := Z.of_nat (nat_of_ascii c) - 48.

Fixpoint skip_ws (s : cstring) : cstring :=
  match s with
  | c :: s' => if isspace c then skip_ws s' else s
  | [] => []
  end.

(** The digits at the front of a string, and what follows them. *)
Fixpoint digits_of (s : cstring) : cstring :=
  match s with
  | c :: s' => if isdigit c then c :: digits_of s' else []
  | [] => []
  end.

Fixpoint after_digits (s : cstring) : cstring :=
  match s with
  | c :: s' => if isdigit c then after_digits s' else s
  | [] => []
  end.

Definition decimal (digits : cstring) : Z :=
  foldl (fun acc c => 10 * acc + digit_value c) 0 digits.

(** The state of the stream and the value of [num] after [ss >> num].
    Where the extraction fails before a value is stored, [num] is given as
    0; [isValidChoice] does not read it then. *)
Record extraction : Type := mkExtraction {
  failbit : bool;
  eofbit : bool;
  num : Z
}.

(** Reading the digits, after the sign if there is one. *)
Definition extract_digits (negative : bool) (body : cstring) : extraction :=
  let digits := digits_of body in
  let value := if negative then - decimal digits else decimal digits in
  let eof := bool_decide (after_digits body = []) in
  if bool_decide (digits = []) then mkExtraction true eof 0
  else if bool_decide (value < INT_MIN) then mkExtraction true eof INT_MIN
  else if bool_decide (INT_MAX < value) then mkExtraction true eof INT_MAX
  else mkExtraction false eof value.

Definition extract_int (s : cstring) : extraction :=
  match skip_ws s with
  | [] => mkExtraction true true 0
  | c :: s' =>
      if bool_decide (c = "-"%char) then extract_digits true s'
      else if bool_decide (c = "+"%char) then extract_digits false s'
      else extract_digits false (c :: s')
  end.

Definition isValidChoice (choice : cstring) : bool :=
  let ss := extract_int choice in
  negb (failbit ss) && eofbit ss
  && (bool_decide (num ss = 1) || bool_decide (num ss = 2)).

(** Linear arithmetic after rewriting with an equation between parents. *)
Ltac cong_lia :=
  solve [ lia
        | match goal with
          | E : parent _ = _ |- _ => rewrite E in *; lia
          | E : _ = parent _ |- _ => rewrite <- E in *; lia
          end ].

(** * Properties *)

(** ** The priority queue *)

Section heap_basics.
Import PriorityQueue.
Implicit Types (q : list HuffmanNode) (i j k : nat).

Lemma key_lookup q i a : q !! i = Some a → key q i = freq a.
Proof. unfold key. by intros ->. Qed.

Lemma freq_lt_key q i j :
  (i < length q)%nat → (j < length q)%nat →
  freq_lt q i j = bool_decide (key q i < key q j).
Proof.
  intros Hi Hj. unfold freq_lt, key.
  destruct (lookup_lt_is_Some_2 q i Hi) as [a ->].
  by destruct (lookup_lt_is_Some_2 q j Hj) as [b ->].
Qed.

Lemma swap_length q i j : length (swap q i j) = length q.
Proof.
  unfold swap. destruct (q !! i), (q !! j); try done.
  by rewrite !length_insert.
Qed.

Lemma swap_lookup q i j k :
  (i < length q)%nat → (j < length q)%nat →
  swap q i j !! k =
    if decide (k = j) then q !! i else if decide (k = i) then q !! j else q !! k.
Proof.
  intros Hi Hj. unfold swap.
  destruct (lookup_lt_is_Some_2 q i Hi) as [a Ha].
  destruct (lookup_lt_is_Some_2 q j Hj) as [b Hb].
  rewrite Ha, Hb. repeat case_decide; subst.
  - rewrite list_lookup_insert_eq; [done | by rewrite length_insert].
  - rewrite list_lookup_insert_ne by done.
    by rewrite list_lookup_insert_eq.
  - by rewrite !list_lookup_insert_ne.
Qed.

Lemma key_swap q i j k :
  (i < length q)%nat → (j < length q)%nat →
  key (swap q i j) k =
    if decide (k = j) then key q i else if decide (k = i) then key q j else key q k.
Proof.
  intros Hi Hj. unfold key. rewrite swap_lookup by done.
  by repeat case_decide.
Qed.

Lemma swap_Permutation q i j : swap q i j ≡ₚ q.
Proof.
  destruct (decide (i < length q ∧ j < length q)%nat) as [[Hi Hj]|Hout].
  - apply Permutation_inj. split; [apply swap_length|].
    exists (fun k => if decide (k = j) then i else if decide (k = i) then j else k).
    split.
    + intros x y. repeat case_decide; intros; subst; congruence.
    + intros k. rewrite swap_lookup by done. by repeat case_decide; subst.
  - unfold swap.
    destruct (q !! i) eqn:Ei; [|done]. destruct (q !! j) eqn:Ej; [|done].
    apply lookup_lt_Some in Ei, Ej. lia.
Qed.

(** *** [heapifyUp]: the fuel is enough, and the loop equation of the source *)

Lemma parent_spec j :
  (0 < j)%nat → (j = 2 * parent j + 1 ∨ j = 2 * parent j + 2)%nat.
Proof.
  intros Hj. unfold parent.
  pose proof (Nat.div_mod_eq (j - 1) 2).
  pose proof (Nat.mod_upper_bound (j - 1) 2).
  lia.
Qed.

Lemma parent_lt i : (0 < i)%nat → (parent i < i)%nat.
Proof. intros Hi. pose proof (parent_spec i Hi). lia. Qed.

Lemma heapifyUp_fuel_eq fuel q i :
  heapifyUp_fuel (S fuel) q i =
    if bool_decide (0 < i)%nat then
      if freq_lt q i (parent i)
      then heapifyUp_fuel fuel (swap q i (parent i)) (parent i)
      else q
    else q.
Proof. reflexivity. Qed.

Lemma heapifyUp_fuel_irrel f1 : ∀ f2 q i,
  (i ≤ f1)%nat → (i ≤ f2)%nat → heapifyUp_fuel f1 q i = heapifyUp_fuel f2 q i.
Proof.
  induction f1 as [|f1 IH]; intros [|f2] q i H1 H2;
    rewrite ?heapifyUp_fuel_eq; try done.
  - assert (i = 0)%nat as -> by lia. done.
  - assert (i = 0)%nat as -> by lia. done.
  - case_bool_decide as Hi; [|done].
    destruct (freq_lt q i _); [|done].
    pose proof (parent_lt i Hi). apply IH; lia.
Qed.

Lemma heapifyUp_unfold q index :
  heapifyUp q index =
    if bool_decide (0 < index)%nat then
      if freq_lt q index (parent index)
      then heapifyUp (swap q index (parent index)) (parent index)
      else q
    else q.
Proof.
  unfold heapifyUp. destruct index as [|n]; [done|].
  rewrite heapifyUp_fuel_eq. rewrite bool_decide_eq_true_2 by lia.
  destruct (freq_lt q (S n) (parent (S n))); [|done].
  pose proof (parent_lt (S n)). apply heapifyUp_fuel_irrel; lia.
Qed.

(** *** [heapifyDown]: the choice of [smallest] and the recursion equation *)

Lemma pick_smallest_spec q i :
  let l := (2 * i + 1)%nat in
  let r := (2 * i + 2)%nat in
  let s := pick_smallest q i in
  (s = i ∧ ((l < length q)%nat → key q i ≤ key q l)
         ∧ ((r < length q)%nat → key q i ≤ key q r))
  ∨ ((s = l ∨ s = r) ∧ (s < length q)%nat ∧ key q s < key q i
     ∧ ((l < length q)%nat → key q s ≤ key q l)
     ∧ ((r < length q)%nat → key q s ≤ key q r)
     ∧ (s = r → key q r < key q l)).
Proof.
  intros l r s. subst s. unfold pick_smallest. fold l r.
  destruct (decide (l < length q)%nat) as [Hl|Hl].
  - rewrite (bool_decide_eq_true_2 _ Hl). simpl.
    rewrite (freq_lt_key q l i) by lia.
    destruct (decide (r < length q)%nat) as [Hr|Hr].
    + rewrite (bool_decide_eq_true_2 _ Hr). simpl.
      case_bool_decide.
      * rewrite (freq_lt_key q r l) by lia.
        case_bool_decide; [right | right]; repeat split; auto; lia.
      * rewrite (freq_lt_key q r i) by lia.
        case_bool_decide; [right | left]; repeat split; auto; lia.
    + rewrite (bool_decide_eq_false_2 _ Hr). simpl.
      case_bool_decide; [right | left]; repeat split; auto; lia.
  - rewrite (bool_decide_eq_false_2 _ Hl). simpl.
    assert (¬ (r < length q)%nat) as Hr by lia.
    rewrite (bool_decide_eq_false_2 _ Hr). simpl.
    left. repeat split; lia.
Qed.

Lemma pick_smallest_range q i :
  pick_smallest q i = i
  ∨ ((i < pick_smallest q i < length q)%nat ∧ (i < length q)%nat).
Proof.
  destruct (pick_smallest_spec q i) as [(-> & _)|([E|E] & Hs & _)]; auto;
    right; lia.
Qed.

Lemma heapifyDown_fuel_irrel f1 : ∀ f2 q i,
  (length q - i ≤ f1)%nat → (length q - i ≤ f2)%nat →
  heapifyDown_fuel f1 q i = heapifyDown_fuel f2 q i.
Proof.
  induction f1 as [|f1 IH]; intros [|f2] q i H1 H2; simpl; try done.
  - case_bool_decide as Hs; [|done].
    destruct (pick_smallest_range q i); [done | lia].
  - case_bool_decide as Hs; [|done].
    destruct (pick_smallest_range q i); [done | lia].
  - case_bool_decide as Hs; [|done].
    destruct (pick_smallest_range q i); [done|].
    apply IH; rewrite swap_length; lia.
Qed.

Lemma heapifyDown_unfold q index :
  heapifyDown q index =
    let smallest := pick_smallest q index in
    if bool_decide (smallest ≠ index)
    then heapifyDown (swap q index smallest) smallest
    else q.
Proof.
  unfold heapifyDown. simpl.
  destruct (pick_smallest_range q index) as [E|[Hs Hi]].
  - rewrite E. rewrite bool_decide_eq_false_2 by (intros ?; done).
    destruct (length q); simpl; [done|].
    rewrite E. by rewrite bool_decide_eq_false_2 by (intros ?; done).
  - destruct (length q) as [|n] eqn:En; [lia|]. simpl.
    case_bool_decide; [|done].
    apply heapifyDown_fuel_irrel; rewrite swap_length; lia.
Qed.

End heap_basics.

Section heap_order.
Import PriorityQueue.
Implicit Types (q : list HuffmanNode) (i j k : nat).

Lemma heapifyUp_fuel_length fuel : ∀ q i, length (heapifyUp_fuel fuel q i) = length q.
Proof.
  induction fuel as [|fuel IH]; intros q i; [done|].
  rewrite heapifyUp_fuel_eq. case_bool_decide; [|done].
  destruct (freq_lt _ _ _); [|done]. by rewrite IH, swap_length.
Qed.

Lemma heapifyUp_fuel_Permutation fuel : ∀ q i, heapifyUp_fuel fuel q i ≡ₚ q.
Proof.
  induction fuel as [|fuel IH]; intros q i; [done|].
  rewrite heapifyUp_fuel_eq. case_bool_decide; [|done].
  destruct (freq_lt _ _ _); [|done]. by rewrite IH, swap_Permutation.
Qed.

Lemma heapifyDown_fuel_length fuel : ∀ q i, length (heapifyDown_fuel fuel q i) = length q.
Proof.
  induction fuel as [|fuel IH]; intros q i; [done|]. simpl.
  case_bool_decide; [|done]. by rewrite IH, swap_length.
Qed.

Lemma heapifyDown_fuel_Permutation fuel : ∀ q i, heapifyDown_fuel fuel q i ≡ₚ q.
Proof.
  induction fuel as [|fuel IH]; intros q i; [done|]. simpl.
  case_bool_decide; [|done]. by rewrite IH, swap_Permutation.
Qed.

Lemma up_inv_swap q i :
  (i < length q)%nat → (0 < i)%nat → up_inv q i →
  key q i < key q (parent i) →
  up_inv (swap q i (parent i)) (parent i).
Proof.
  intros Hi Hpos [H1 H2] Hlt. pose proof (parent_lt i Hpos) as Hp.
  split; intros j Hj; rewrite swap_length in Hj.
  - intros Hne. rewrite !key_swap by lia.
    pose proof (parent_spec j). pose proof (parent_spec i).
    pose proof (H1 j). pose proof (H2 j).
    repeat case_decide; simplify_eq; cong_lia.
  - intros Hpj Hpp. rewrite !key_swap by lia.
    pose proof (parent_spec j). pose proof (parent_spec i).
    pose proof (parent_lt (parent i) Hpp).
    pose proof (H1 j). pose proof (H1 (parent i)).
    repeat case_decide; simplify_eq; cong_lia.
Qed.

Lemma heapifyUp_heap : ∀ i q,
  (i < length q)%nat → up_inv q i → heap_ordered (heapifyUp q i).
Proof.
  induction i as [i IH] using lt_wf_ind. intros q Hi Hinv.
  rewrite heapifyUp_unfold. case_bool_decide as Hpos.
  - pose proof (parent_lt i Hpos) as Hp.
    rewrite freq_lt_key by lia. case_bool_decide as Hlt.
    + apply IH; [lia | rewrite swap_length; lia | by apply up_inv_swap].
    + destruct Hinv as [H1 H2]. intros j Hj. pose proof (H1 j).
      destruct (decide (j = i)); simplify_eq; lia.
  - destruct Hinv as [H1 H2]. intros j Hj. apply H1; lia.
Qed.

(** The root after [heapifyUp]: the node that was sifted takes the root
    only when it is strictly lighter than the old root. *)
Lemma up_inv_root_le q i k :
  up_inv q i → (k < i)%nat → (k < length q)%nat → key q 0 ≤ key q k.
Proof.
  intros [H1 _]. induction k as [k IH] using lt_wf_ind. intros Hk Hlen.
  destruct (decide (k = 0)%nat) as [->|]; [lia|].
  pose proof (parent_lt k). pose proof (H1 k). pose proof (IH (parent k)).
  lia.
Qed.

Lemma heapifyUp_root : ∀ i q,
  (i < length q)%nat → up_inv q i →
  heapifyUp q i !! 0%nat =
    if bool_decide (key q i < key q 0) then q !! i else q !! 0%nat.
Proof.
  induction i as [i IH] using lt_wf_ind. intros q Hi Hinv.
  rewrite heapifyUp_unfold. case_bool_decide as Hpos.
  - pose proof (parent_lt i Hpos) as Hp.
    rewrite freq_lt_key by lia. case_bool_decide as Hlt.
    + rewrite IH; [| lia | rewrite swap_length; lia | by apply up_inv_swap].
      rewrite !key_swap, !swap_lookup by lia.
      rewrite (decide_True (P := parent i = parent i)) by done.
      pose proof (up_inv_root_le q i (parent i) Hinv).
      repeat case_decide; repeat case_bool_decide; simplify_eq; try done;
        cong_lia.
    + pose proof (up_inv_root_le q i (parent i) Hinv).
      rewrite bool_decide_eq_false_2; [done | lia].
  - assert (i = 0)%nat as -> by lia.
    by rewrite bool_decide_eq_false_2 by lia.
Qed.

Lemma parent_child j i :
  (0 < j)%nat → parent j = i ↔ (j = 2 * i + 1 ∨ j = 2 * i + 2)%nat.
Proof. intros Hj. pose proof (parent_spec j Hj). lia. Qed.

Lemma pick_smallest_children q i :
  let s := pick_smallest q i in
  (s = i ∧ ∀ j, (0 < j < length q)%nat → parent j = i → key q i ≤ key q j)
  ∨ ((i < s < length q)%nat ∧ parent s = i ∧ key q s < key q i
     ∧ ∀ j, (0 < j < length q)%nat → parent j = i → key q s ≤ key q j).
Proof.
  intros s.
  destruct (pick_smallest_spec q i)
    as [(E & Hl & Hr)|(Hs & Hlen & Hlt & Hl & Hr & _)]; fold s in E || fold s in Hs.
  - left. split; [done|]. intros j Hj Hp.
    apply parent_child in Hp as [->| ->]; [apply Hl | apply Hr | ]; lia.
  - right. fold s in Hlen, Hlt, Hl, Hr. repeat split; [lia | lia | | done |].
    + apply parent_child; lia.
    + intros j Hj Hp.
      apply parent_child in Hp as [->| ->]; [apply Hl | apply Hr | ]; lia.
Qed.

Lemma heapifyDown_heap : ∀ n q i,
  (length q - i ≤ n)%nat → down_inv q i → heap_ordered (heapifyDown q i).
Proof.
  induction n as [|n IH]; intros q i Hn [H1 H2];
    rewrite heapifyDown_unfold; simpl;
    destruct (pick_smallest_children q i) as [(E & Hk)|(Hs & Hp & Hlt & Hk)].
  - rewrite E, bool_decide_eq_false_2 by (intros ?; done).
    intros j Hj. pose proof (H1 j). pose proof (Hk j).
    destruct (decide (parent j = i)); cong_lia.
  - lia.
  - rewrite E, bool_decide_eq_false_2 by (intros ?; done).
    intros j Hj. pose proof (H1 j). pose proof (Hk j).
    destruct (decide (parent j = i)); cong_lia.
  - set (s := pick_smallest q i) in *.
    rewrite bool_decide_eq_true_2 by lia. clearbody s.
    apply IH; [rewrite swap_length; lia|].
    split; intros j Hj; rewrite swap_length in Hj.
    + intros Hne. rewrite !key_swap by lia.
      pose proof (parent_lt j).
      pose proof (H1 j). pose proof (H2 s). pose proof (Hk j).
      repeat case_decide; subst; cong_lia.
    + intros Hpj Hpos. rewrite !key_swap by lia.
      pose proof (parent_lt j). pose proof (H1 j).
      repeat case_decide; subst; cong_lia.
Qed.

Lemma heap_root_min q k :
  heap_ordered q → (k < length q)%nat → key q 0 ≤ key q k.
Proof.
  intros Hq. induction k as [k IH] using lt_wf_ind. intros Hk.
  destruct (decide (k = 0)%nat) as [->|]; [lia|].
  pose proof (parent_lt k). pose proof (Hq k).
  pose proof (IH (parent k)). lia.
Qed.

Lemma is_heap_spec q : is_heap q = true ↔ heap_ordered q.
Proof.
  unfold is_heap, heap_ordered. rewrite forallb_forall. split.
  - intros H j Hj. specialize (H j). rewrite bool_decide_eq_true in H.
    apply H, in_seq. lia.
  - intros H j Hj%in_seq. apply bool_decide_eq_true, H. lia.
Qed.

(** *** [push] *)

Lemma push_length q x : length (push q x) = S (length q).
Proof.
  unfold push, heapifyUp. rewrite heapifyUp_fuel_length, length_app. simpl. lia.
Qed.

Lemma push_Permutation q x : push q x ≡ₚ x :: q.
Proof.
  unfold push, heapifyUp. rewrite heapifyUp_fuel_Permutation.
  by rewrite Permutation_app_comm.
Qed.

Lemma key_app_l q x j : (j < length q)%nat → key (q ++ [x]) j = key q j.
Proof. intros Hj. unfold key. by rewrite lookup_app_l. Qed.

Lemma push_heap q x : heap_ordered q → heap_ordered (push q x).
Proof.
  intros Hq. unfold push. apply heapifyUp_heap.
  - rewrite length_app. simpl. lia.
  - rewrite length_app. simpl.
    replace (length q + 1 - 1)%nat with (length q) by lia.
    split; intros j Hj; rewrite length_app in Hj; simpl in Hj.
    + intros Hne. pose proof (parent_lt j).
      rewrite !key_app_l by lia. apply Hq. lia.
    + intros Hp. pose proof (parent_lt j). lia.
Qed.

(** *** [pop] *)

Lemma pop_nil : pop [] = (None, []).
Proof. reflexivity. Qed.

Lemma pop_cons root q :
  ∃ back, last (root :: q) = Some back
    ∧ pop (root :: q) =
        (Some root, heapifyDown (take (length q) (back :: q)) 0).
Proof.
  unfold pop.
  destruct (last (root :: q)) as [back|] eqn:E.
  - exists back. split; [done|]. simpl.
    by rewrite Nat.sub_0_r.
  - by apply last_None in E.
Qed.

Lemma pop_length root q q' x :
  pop (root :: q) = (x, q') → x = Some root ∧ length q' = length q.
Proof.
  destruct (pop_cons root q) as (back & _ & ->). intros [= <- <-].
  split; [done|].
  unfold heapifyDown.
  rewrite heapifyDown_fuel_length, length_take. simpl. lia.
Qed.

Lemma take_last_Permutation (root : HuffmanNode) q back :
  last (root :: q) = Some back →
  root :: take (length q) (back :: q) ≡ₚ root :: q.
Proof.
  intros Hlast. destruct q as [|y q _] using rev_ind.
  - done.
  - rewrite app_comm_cons, last_snoc in Hlast. simplify_eq.
    rewrite length_app. simpl.
    replace (length q + 1)%nat with (S (length q)) by lia. simpl.
    rewrite take_app_length. f_equiv.
    by rewrite Permutation_app_comm.
Qed.

Lemma pop_Permutation root q q' x :
  pop (root :: q) = (x, q') → root :: q' ≡ₚ root :: q.
Proof.
  destruct (pop_cons root q) as (back & Hlast & ->). intros [= <- <-].
  unfold heapifyDown. rewrite heapifyDown_fuel_Permutation.
  by apply take_last_Permutation.
Qed.

Lemma pop_heap root q q' x :
  heap_ordered (root :: q) → pop (root :: q) = (x, q') → heap_ordered q'.
Proof.
  intros Hq. destruct (pop_cons root q) as (back & Hlast & ->).
  intros [= <- <-].
  apply (heapifyDown_heap (length (take (length q) (back :: q)))); [lia|].
  split; intros j Hj.
  - intros Hne. pose proof (parent_lt j).
    rewrite length_take in Hj. simpl in Hj.
    assert (key (take (length q) (back :: q)) j = key (root :: q) j) as ->.
    { unfold key. rewrite lookup_take_lt by lia.
      destruct j; [lia | done]. }
    assert (key (take (length q) (back :: q)) (parent j)
            = key (root :: q) (parent j)) as ->.
    { unfold key. rewrite lookup_take_lt by lia.
      destruct (parent j); [lia | done]. }
    apply Hq. simpl. lia.
  - intros _ ?. lia.
Qed.

End heap_order.

(** ** The frequency table *)

Section frequency_table.
Implicit Types (l : list Node) (c : ascii) (s : cstring) (t : FrequencyTable).

Lemma wrap_small z : INT_MIN ≤ z ≤ INT_MAX → wrap z = z.
Proof.
  unfold wrap, INT_MIN, INT_MAX. intros Hz.
  rewrite Z.mod_small; lia.
Qed.

Lemma isEmpty_true t : isEmpty t = true ↔ head t = [].
Proof. unfold isEmpty. by destruct (head t). Qed.

Lemma isEmpty_false t : isEmpty t = false ↔ head t ≠ [].
Proof. unfold isEmpty. by destruct (head t). Qed.

Lemma scan_Some c l l' :
  scan c l = Some l' → getChar <$> l' = getChar <$> l ∧ c ∈ getChar <$> l.
Proof.
  revert l'. induction l as [|n l IH]; intros l' H; simpl in H; [done|].
  rewrite fmap_cons, elem_of_cons. case_bool_decide as Hc.
  - simplify_eq. by split; [|left].
  - destruct (scan c l) as [r|] eqn:E; [|done]. simplify_eq.
    destruct (IH r eq_refl) as [E' ?]. rewrite fmap_cons, E'.
    by split; [|right].
Qed.

Lemma scan_None c l : scan c l = None → c ∉ getChar <$> l.
Proof.
  induction l as [|n l IH]; simpl; intros H.
  - apply not_elem_of_nil.
  - case_bool_decide as Hc; [done|].
    destruct (scan c l); [done|].
    apply not_elem_of_cons. split; [congruence | by apply IH].
Qed.

Lemma count_char_chars l c :
  getChar <$> (count_char l c) =
    if decide (c ∈ getChar <$> l) then getChar <$> l else (getChar <$> l) ++ [c].
Proof.
  unfold count_char. destruct (scan c l) as [l'|] eqn:E.
  - apply scan_Some in E as [-> ?]. by rewrite decide_True.
  - apply scan_None in E. rewrite decide_False by done.
    by rewrite fmap_app.
Qed.

Lemma count_char_nonempty l c : count_char l c ≠ [].
Proof.
  intros E. pose proof (count_char_chars l c) as H. rewrite E in H.
  case_decide as Hc; simpl in H.
  - rewrite <- H in Hc. by apply elem_of_nil in Hc.
  - by destruct (getChar <$> l).
Qed.

Lemma foldl_count_char_chars s : ∀ l,
  NoDup (getChar <$> l) →
  NoDup (getChar <$> (foldl count_char l s))
  ∧ ∀ c, c ∈ getChar <$> (foldl count_char l s) ↔ c ∈ getChar <$> l ∨ c ∈ s.
Proof.
  induction s as [|x s IH]; intros l Hl; simpl.
  - split; [done|]. intros c. rewrite elem_of_nil. tauto.
  - assert (NoDup (getChar <$> (count_char l x))
            ∧ ∀ c, c ∈ getChar <$> (count_char l x)
                   ↔ c ∈ getChar <$> l ∨ c = x) as [Hnd Hin].
    { rewrite count_char_chars. case_decide as Hx.
      - split; [done|]. intros c. split; [tauto | intros [?| ->]; done].
      - split.
        + apply NoDup_app. repeat split; [done | | apply NoDup_singleton].
          intros y Hy ->%list_elem_of_singleton. done.
        + intros c. by rewrite elem_of_app, list_elem_of_singleton. }
    destruct (IH _ Hnd) as [? Hin']. split; [done|].
    intros c. rewrite Hin', Hin, elem_of_cons. tauto.
Qed.

Lemma foldl_count_char_nonempty s l : s ≠ [] → foldl count_char l s ≠ [].
Proof.
  destruct s as [|y s _] using rev_ind; [done|]. intros _.
  rewrite foldl_app. simpl. apply count_char_nonempty.
Qed.

(** *** Counts and their total, within the range of [int] *)

Lemma total_cons z (zs : list Z) : total (z :: zs) = z + total zs.
Proof. reflexivity. Qed.

Lemma total_app (xs ys : list Z) : total (xs ++ ys) = total xs + total ys.
Proof.
  induction xs as [|x xs IH]; [done|].
  rewrite <- app_comm_cons, !total_cons, IH. lia.
Qed.

Lemma total_nonneg (zs : list Z) : Forall (fun x => 0 ≤ x) zs → 0 ≤ total zs.
Proof. induction 1; rewrite ?total_cons; [done | lia]. Qed.

Lemma total_Permutation (xs ys : list Z) : xs ≡ₚ ys → total xs = total ys.
Proof. induction 1; rewrite ?total_cons in *; lia. Qed.

Lemma elem_le_total (zs : list Z) z :
  Forall (fun x => 0 ≤ x) zs → z ∈ zs → z ≤ total zs.
Proof.
  induction 1 as [|x zs Hx Hzs IH]; intros Hin.
  - by apply elem_of_nil in Hin.
  - pose proof (total_nonneg zs Hzs). rewrite total_cons.
    apply elem_of_cons in Hin as [->|Hin]; [lia|].
    specialize (IH Hin). lia.
Qed.

Lemma counts_nonneg l :
  Forall (fun n => 1 ≤ getFreq n) l → Forall (fun x => 0 ≤ x) (getFreq <$> l).
Proof.
  intros H. apply Forall_fmap. eapply Forall_impl; [done|]. simpl. lia.
Qed.

Lemma scan_total c l l' :
  Forall (fun n => 1 ≤ getFreq n) l → total (getFreq <$> l) < INT_MAX →
  scan c l = Some l' →
  Forall (fun n => 1 ≤ getFreq n) l'
  ∧ total (getFreq <$> l') = total (getFreq <$> l) + 1.
Proof.
  intros Hl. revert l'. induction Hl as [|n l Hn Hl IH]; intros l' Hb H;
    simpl in H; [done|].
  pose proof (total_nonneg _ (counts_nonneg l Hl)).
  rewrite fmap_cons, total_cons in Hb |- *.
  case_bool_decide.
  - simplify_eq. unfold int_add. rewrite wrap_small by (unfold INT_MIN; lia).
    split; [constructor; simpl; [lia | done] |].
    rewrite fmap_cons, total_cons. simpl. lia.
  - destruct (scan c l) as [r|] eqn:E; [|done]. simplify_eq.
    destruct (IH r) as [? Hr]; [lia | done |].
    split; [by constructor |]. rewrite fmap_cons, total_cons. lia.
Qed.

Lemma count_char_total l c :
  Forall (fun n => 1 ≤ getFreq n) l → total (getFreq <$> l) < INT_MAX →
  Forall (fun n => 1 ≤ getFreq n) (count_char l c)
  ∧ total (getFreq <$> (count_char l c)) = total (getFreq <$> l) + 1.
Proof.
  intros Hl Hb. unfold count_char. destruct (scan c l) as [l'|] eqn:E.
  - by eapply scan_total.
  - split.
    + apply Forall_app. split; [done|]. by repeat constructor.
    + by rewrite fmap_app, total_app.
Qed.

Lemma foldl_count_char_total s : ∀ l,
  Forall (fun n => 1 ≤ getFreq n) l →
  total (getFreq <$> l) + Z.of_nat (length s) ≤ INT_MAX →
  Forall (fun n => 1 ≤ getFreq n) (foldl count_char l s)
  ∧ total (getFreq <$> (foldl count_char l s))
    = total (getFreq <$> l) + Z.of_nat (length s).
Proof.
  induction s as [|x s IH]; intros l Hl Hb; simpl in *.
  - split; [done | lia].
  - destruct (count_char_total l x) as [H1 H2]; [done | lia |].
    destruct (IH _ H1) as [? ->]; [lia|]. split; [done | lia].
Qed.

(** *** [MakeTable] *)

Lemma feed_nonempty s :
  s ≠ [] →
  head (feed newFrequencyTable s) = foldl count_char [] s
  ∧ isEmpty (feed newFrequencyTable s) = false.
Proof.
  intros Hs. unfold feed, MakeTable. simpl.
  destruct s as [|x s]; [done|]. simpl. split; [done|].
  apply isEmpty_false. simpl.
  by apply (foldl_count_char_nonempty (x :: s)).
Qed.

Lemma feed_populated t s : isEmpty t = false → head (feed t s) = head t.
Proof.
  intros Ht. unfold feed, MakeTable.
  assert (isEmpty (sethuffmanString s t) = false) as -> by done. done.
Qed.

Lemma feed_empty_string t : isEmpty t = true → head (feed t []) = [].
Proof.
  intros Ht. unfold feed, MakeTable.
  assert (isEmpty (sethuffmanString [] t) = true) as -> by done. simpl.
  by apply isEmpty_true.
Qed.

End frequency_table.

(** C8.  [MakeTable] on a table that holds nothing yet, with the empty string
    as input, reports the error "Error! Huffman String is Empty!" and builds
    no table: no cell is created, the list head stays null and the table is
    still reported as empty. *)
Theorem MakeTable_empty_input (t : FrequencyTable) :
  isEmpty t = true →
  MakeTable (sethuffmanString [] t) = (sethuffmanString [] t, msg_empty)
  ∧ head (MakeTable (sethuffmanString [] t)).1 = []
  ∧ isEmpty (MakeTable (sethuffmanString [] t)).1 = true.
Proof.
  intros Ht. unfold MakeTable.
  assert (isEmpty (sethuffmanString [] t) = true) as -> by done. simpl.
  split; [done|]. split; [by apply isEmpty_true | done].
Qed.

Lemma MakeTable_empty_input_witness :
  isEmpty newFrequencyTable = true
  ∧ MakeTable (sethuffmanString [] newFrequencyTable)
    = (sethuffmanString [] newFrequencyTable, msg_empty).
Proof.
  split; [reflexivity|].
  apply (MakeTable_empty_input newFrequencyTable). reflexivity.
Defined.

(** C10.  On a table that is already populated, [MakeTable] changes nothing,
    whatever string has been set in the meantime: it only prints "Table is
    already populated!".  The cells, their counts and their order stay as
    they are and no cell is added, also over any further sequence of inputs;
    so the table [main] keeps is the one of the first non-empty input. *)
Theorem MakeTable_populated_unchanged (t : FrequencyTable) (s : cstring) :
  isEmpty t = false →
  MakeTable (sethuffmanString s t) = (sethuffmanString s t, msg_populated)
  ∧ head (MakeTable (sethuffmanString s t)).1 = head t
  ∧ (∀ inputs, head (foldl feed t inputs) = head t)
  ∧ (∀ blanks first inputs,
       Forall (fun x => x = []) blanks → first ≠ [] →
       head (foldl feed newFrequencyTable (blanks ++ first :: inputs))
       = foldl count_char [] first).
Proof.
  intros Ht.
  assert (∀ inputs u, isEmpty u = false → head (foldl feed u inputs) = head u)
    as Hkeep.
  { induction inputs as [|x inputs IH]; intros u Hu; simpl; [done|].
    rewrite IH; [by apply feed_populated|].
    apply isEmpty_false. rewrite feed_populated by done.
    by apply isEmpty_false. }
  split; [|split; [|split]].
  - unfold MakeTable.
    assert (isEmpty (sethuffmanString s t) = false) as -> by done. done.
  - by apply feed_populated.
  - intros inputs. by apply Hkeep.
  - intros blanks first inputs Hblanks Hfirst.
    assert (∀ u, isEmpty u = true →
              head (foldl feed u (blanks ++ first :: inputs))
              = foldl count_char [] first) as Hgo.
    { induction Hblanks as [|b blanks -> _ IH]; intros u Hu; simpl.
      - assert (head (feed u first) = foldl count_char [] first
                ∧ isEmpty (feed u first) = false) as [E1 E2].
        { unfold feed, MakeTable.
          assert (isEmpty (sethuffmanString first u) = true) as -> by done.
          simpl. destruct first as [|x first]; [done|].
          apply isEmpty_true in Hu. simpl. rewrite Hu. split; [done|].
          apply isEmpty_false. simpl.
          by apply (foldl_count_char_nonempty (x :: first)). }
        by rewrite Hkeep.
      - apply IH. apply isEmpty_true. by apply feed_empty_string. }
    by apply Hgo.
Qed.

Lemma MakeTable_populated_unchanged_witness :
  isEmpty (feed newFrequencyTable (str "ab")) = false
  ∧ head (MakeTable (sethuffmanString (str "zzz")
                       (feed newFrequencyTable (str "ab")))).1
    = [mkNode "a" 1; mkNode "b" 1].
Proof.
  split; [reflexivity|].
  apply (MakeTable_populated_unchanged
           (feed newFrequencyTable (str "ab")) (str "zzz")).
  reflexivity.
Defined.

(** ** Extraction of the minimum *)

Lemma sift_choice (q : list HuffmanNode) (i : nat) : sift_choice_ok q i.
Proof.
  unfold sift_choice_ok.
  destruct (pick_smallest_spec q i)
    as [(E & Hl & Hr)|(Hs & Hlen & Hlt & Hl & Hr & Hstrict)].
  - rewrite E. repeat split; try done.
  - repeat split; try tauto; try lia.
    intros [Hl' Hr']. destruct Hs as [E|E]; rewrite E in *;
      [specialize (Hl' Hlen) | specialize (Hr' Hlen)]; lia.
Qed.

Lemma heap_root_least (q : list HuffmanNode) (root x : HuffmanNode) :
  heap_ordered q → q !! 0%nat = Some root → x ∈ q → freq root ≤ freq x.
Proof.
  intros Hq Hroot [k Hk]%list_elem_of_lookup.
  rewrite <- (key_lookup q 0 root Hroot), <- (key_lookup q k x Hk).
  apply heap_root_min; [done|]. by eapply lookup_lt_Some.
Qed.

(** C5.  On a non-empty queue in heap order, [pop] returns the node at the
    root, whose weight is minimal among the contents; the queue it leaves
    holds the other nodes (the contents without the returned node) and is in
    heap order again.  It gets there by overwriting the root with the last
    element, dropping the last slot and sifting down from index 0, where
    each step of [heapifyDown] swaps with [smallest] and continues there as
    long as [smallest] is not the index itself, and [smallest] is chosen by
    [sift_choice_ok]: the smaller child, the left one on equal weights, and
    only a child that is strictly smaller than the node. *)
Theorem pop_extracts_min (queue : list HuffmanNode) :
  queue ≠ [] → is_heap queue = true →
  ∃ root back,
    queue !! 0%nat = Some root ∧ last queue = Some back
    ∧ (∀ x, x ∈ queue → freq root ≤ freq x)
    ∧ PriorityQueue.pop queue =
        (Some root,
         PriorityQueue.heapifyDown
           (take (length queue - 1) (<[0%nat:=back]> queue)) 0)
    ∧ queue ≡ₚ root :: (PriorityQueue.pop queue).2
    ∧ is_heap (PriorityQueue.pop queue).2 = true
    ∧ (∀ q i,
         PriorityQueue.heapifyDown q i =
           let smallest := PriorityQueue.pick_smallest q i in
           if bool_decide (smallest ≠ i)
           then PriorityQueue.heapifyDown (PriorityQueue.swap q i smallest) smallest
           else q)
    ∧ (∀ q i, sift_choice_ok q i).
Proof.
  intros Hne Hheap. apply is_heap_spec in Hheap.
  destruct queue as [|root q]; [done|].
  destruct (pop_cons root q) as (back & Hlast & Hpop).
  exists root, back. split; [done|]. split; [done|].
  split; [intros x; by apply heap_root_least|].
  split.
  { rewrite Hpop. simpl. by rewrite Nat.sub_0_r. }
  split.
  { symmetry. eapply pop_Permutation. apply surjective_pairing. }
  split.
  { apply is_heap_spec. eapply pop_heap; [done|]. apply surjective_pairing. }
  split; [apply heapifyDown_unfold | apply sift_choice].
Qed.

Lemma pop_extracts_min_witness :
  ∃ root back,
    [newHuffmanNode "a" 1; newHuffmanNode "b" 3; newHuffmanNode "c" 2] !! 0%nat
      = Some root
    ∧ last [newHuffmanNode "a" 1; newHuffmanNode "b" 3; newHuffmanNode "c" 2]
      = Some back.
Proof.
  destruct (pop_extracts_min
              [newHuffmanNode "a" 1; newHuffmanNode "b" 3; newHuffmanNode "c" 2])
    as (root & back & H1 & H2 & _); [done | reflexivity |].
  by exists root, back.
Defined.

(** ** Order of extraction *)

Section extraction.
Import PriorityQueue.
Implicit Types (q xs : list HuffmanNode) (i j : nat).

Lemma heap_ordered_nil : heap_ordered [].
Proof. intros j Hj. simpl in Hj. lia. Qed.

Lemma foldl_push_heap xs : ∀ q,
  heap_ordered q → heap_ordered (foldl push q xs).
Proof.
  induction xs as [|x xs IH]; intros q Hq; simpl; [done|].
  by apply IH, push_heap.
Qed.

Lemma foldl_push_Permutation xs : ∀ q, foldl push q xs ≡ₚ q ++ xs.
Proof.
  induction xs as [|x xs IH]; intros q; simpl.
  - by rewrite app_nil_r.
  - rewrite IH, push_Permutation. simpl. apply Permutation_middle.
Qed.

Lemma push_all_heap xs : heap_ordered (push_all xs).
Proof. apply foldl_push_heap, heap_ordered_nil. Qed.

Lemma push_all_Permutation xs : push_all xs ≡ₚ xs.
Proof. unfold push_all. by rewrite foldl_push_Permutation. Qed.

Lemma pop_all_sorted n : ∀ q,
  length q = n → heap_ordered q →
  pop_all n q ≡ₚ q ∧ StronglySorted weight_le (pop_all n q).
Proof.
  induction n as [|n IH]; intros q Hlen Hq.
  - destruct q; [|done]. split; [done | constructor].
  - destruct q as [|root q]; [done|]. simpl.
    destruct (pop (root :: q)) as [x q'] eqn:Hpop.
    destruct (pop_length _ _ _ _ Hpop) as [-> Hlen'].
    pose proof (pop_Permutation _ _ _ _ Hpop) as Hperm.
    pose proof (pop_heap _ _ _ _ Hq Hpop) as Hq'.
    destruct (IH q') as [Hp Hs]; [simpl in Hlen; lia | done |].
    split; [by rewrite Hp|].
    constructor; [done|].
    apply Forall_forall. intros y Hy.
    apply (heap_root_least (root :: q)); [done | done |].
    rewrite <- Hperm. right. by rewrite <- Hp.
Qed.

(** *** The first node out is the earliest of minimum weight *)

Lemma up_inv_snoc q x : heap_ordered q → up_inv (q ++ [x]) (length q).
Proof.
  intros Hq.
  split; intros j Hj; rewrite length_app in Hj; simpl in Hj.
  - intros Hne. pose proof (parent_lt j).
    rewrite !key_app_l by lia. apply Hq. lia.
  - intros Hp. pose proof (parent_lt j). lia.
Qed.

Lemma push_root q x :
  heap_ordered q → push q x !! 0%nat = keep_lighter (q !! 0%nat) x.
Proof.
  intros Hq. unfold push. rewrite length_app. simpl.
  replace (length q + 1 - 1)%nat with (length q) by lia.
  rewrite heapifyUp_root;
    [| rewrite length_app; simpl; lia | by apply up_inv_snoc].
  assert (key (q ++ [x]) (length q) = freq x) as ->.
  { unfold key. by rewrite list_lookup_middle. }
  rewrite (list_lookup_middle q [] x (length q)) by done.
  destruct q as [|b q]; simpl.
  - by rewrite bool_decide_eq_false_2 by (unfold key; simpl; lia).
  - unfold key. simpl. by case_bool_decide.
Qed.

Lemma foldl_push_root xs : ∀ q,
  heap_ordered q →
  foldl push q xs !! 0%nat = foldl keep_lighter (q !! 0%nat) xs.
Proof.
  induction xs as [|x xs IH]; intros q Hq; simpl; [done|].
  rewrite IH by by apply push_heap. by rewrite push_root.
Qed.

Lemma push_all_root xs : push_all xs !! 0%nat = first_min xs.
Proof. apply (foldl_push_root xs []), heap_ordered_nil. Qed.

Lemma extraction_order_first xs : extraction_order xs !! 0%nat = first_min xs.
Proof.
  rewrite <- push_all_root. unfold extraction_order.
  pose proof (Permutation_length (push_all_Permutation xs)) as Hlen.
  rewrite <- Hlen. destruct (push_all xs) as [|root q]; [done|]. simpl.
  destruct (pop_cons root q) as (back & _ & ->). done.
Qed.

Lemma first_min_None xs : first_min xs = None → xs = [].
Proof.
  destruct xs as [|x xs _] using rev_ind; [done|].
  unfold first_min. rewrite foldl_snoc. unfold keep_lighter.
  destruct (foldl _ _ _); [by case_bool_decide | done].
Qed.

Lemma first_min_spec xs b :
  first_min xs = Some b →
  ∃ pre post, xs = pre ++ b :: post
    ∧ Forall (fun y => freq b < freq y) pre
    ∧ Forall (fun y => freq b ≤ freq y) post.
Proof.
  revert b. induction xs as [|x xs IH] using rev_ind; intros b; [done|].
  unfold first_min. rewrite foldl_snoc. fold (first_min xs).
  destruct (first_min xs) as [b0|] eqn:E; simpl.
  - destruct (IH b0 eq_refl) as (pre & post & -> & Hpre & Hpost).
    case_bool_decide as Hlt; intros [= <-].
    + exists (pre ++ b0 :: post), []. split; [done|]. split; [|done].
      apply Forall_app. split; [|constructor].
      * eapply Forall_impl; [done|]. simpl. lia.
      * done.
      * eapply Forall_impl; [done|]. simpl. lia.
    + exists pre, (post ++ [x]). split; [by rewrite <- app_assoc|].
      split; [done|]. apply Forall_app. split; [done|].
      constructor; [lia | done].
  - apply first_min_None in E as ->. intros [= <-].
    by exists [], [].
Qed.

(** *** The queue only looks at weights *)

Context (g : HuffmanNode → HuffmanNode) (Hg : ∀ x, freq (g x) = freq x).

Lemma freq_lt_fmap q i j : freq_lt (g <$> q) i j = freq_lt q i j.
Proof.
  unfold freq_lt. rewrite !list_lookup_fmap.
  destruct (q !! i), (q !! j); simpl; try done. by rewrite !Hg.
Qed.

Lemma swap_fmap q i j : swap (g <$> q) i j = g <$> swap q i j.
Proof.
  unfold swap. rewrite !list_lookup_fmap.
  destruct (q !! i), (q !! j); simpl; try done.
  by rewrite !list_fmap_insert.
Qed.

Lemma heapifyUp_fuel_fmap fuel : ∀ q i,
  heapifyUp_fuel fuel (g <$> q) i = g <$> heapifyUp_fuel fuel q i.
Proof.
  induction fuel as [|fuel IH]; intros q i; [done|].
  rewrite !heapifyUp_fuel_eq, freq_lt_fmap.
  case_bool_decide; [|done]. destruct (freq_lt q i _); [|done].
  by rewrite swap_fmap, IH.
Qed.

Lemma pick_smallest_fmap q i : pick_smallest (g <$> q) i = pick_smallest q i.
Proof. unfold pick_smallest. by rewrite length_fmap, !freq_lt_fmap. Qed.

Lemma heapifyDown_fuel_fmap fuel : ∀ q i,
  heapifyDown_fuel fuel (g <$> q) i = g <$> heapifyDown_fuel fuel q i.
Proof.
  induction fuel as [|fuel IH]; intros q i; [done|]. simpl.
  rewrite pick_smallest_fmap. case_bool_decide; [|done].
  by rewrite swap_fmap, IH.
Qed.

Lemma push_fmap q x : push (g <$> q) (g x) = g <$> push q x.
Proof.
  unfold push, heapifyUp.
  replace ((g <$> q) ++ [g x]) with (g <$> (q ++ [x])) by by rewrite fmap_app.
  by rewrite heapifyUp_fuel_fmap, length_fmap.
Qed.

Lemma pop_fmap q :
  pop (g <$> q) = (g <$> (pop q).1, g <$> (pop q).2).
Proof.
  unfold pop. rewrite list_lookup_fmap, fmap_last.
  destruct (q !! 0%nat); simpl; [|done].
  destruct (last q); simpl; [|done].
  unfold heapifyDown.
  rewrite <- list_fmap_insert, !length_insert, length_fmap, <- fmap_take.
  by rewrite heapifyDown_fuel_fmap, length_fmap, !length_insert.
Qed.

Lemma foldl_push_fmap xs : ∀ q,
  foldl push (g <$> q) (g <$> xs) = g <$> foldl push q xs.
Proof.
  induction xs as [|x xs IH]; intros q; [done|].
  rewrite fmap_cons. simpl. by rewrite push_fmap, IH.
Qed.

Lemma pop_all_fmap n : ∀ q, pop_all n (g <$> q) = g <$> pop_all n q.
Proof.
  induction n as [|n IH]; intros q; [done|]. simpl.
  rewrite pop_fmap. destruct (pop q) as [[x|] q']; simpl; [|done].
  by rewrite IH.
Qed.

Lemma extraction_order_fmap xs :
  extraction_order (g <$> xs) = g <$> extraction_order xs.
Proof.
  unfold extraction_order, push_all.
  by rewrite length_fmap, <- pop_all_fmap, <- foldl_push_fmap.
Qed.

End extraction.

(** C6 as stated fails: three nodes of equal weight inserted in the order
    a, b, c leave the queue in the order a, c, b. *)
Lemma extraction_not_fifo :
  extraction_order
    [newHuffmanNode "a" 1; newHuffmanNode "b" 1; newHuffmanNode "c" 1]
  = [newHuffmanNode "a" 1; newHuffmanNode "c" 1; newHuffmanNode "b" 1]
  ∧ ¬ fifo_among_minimum
        [newHuffmanNode "a" 1; newHuffmanNode "b" 1; newHuffmanNode "c" 1].
Proof.
  split; [reflexivity|]. intros H. specialize (H 1).
  assert (∀ x, x ∈ [newHuffmanNode "a" 1; newHuffmanNode "b" 1;
                    newHuffmanNode "c" 1] → 1 ≤ freq x) as Hmin.
  { intros x Hx. repeat (apply elem_of_cons in Hx as [->|Hx]; [simpl; lia|]).
    by apply elem_of_nil in Hx. }
  specialize (H Hmin). vm_compute in H. discriminate H.
Qed.

(** C6, amended.  Whatever nodes are inserted, extracting them all returns
    the inserted nodes in non-decreasing order of weight; the first node
    returned is the earliest inserted node of minimum weight; and the order
    depends on the weights alone, never on the symbols: relabelling the
    nodes without changing their weights relabels the result.  (Among the
    later nodes of equal weight the order is the one the heap positions
    give, which is not insertion order in general.) *)
Theorem extraction_order_by_weight (xs : list HuffmanNode) :
  extraction_order xs ≡ₚ xs
  ∧ StronglySorted weight_le (extraction_order xs)
  ∧ extraction_order xs !! 0%nat = first_min xs
  ∧ (∀ b, first_min xs = Some b →
       ∃ pre post, xs = pre ++ b :: post
         ∧ Forall (fun y => freq b < freq y) pre
         ∧ Forall (fun y => freq b ≤ freq y) post)
  ∧ (∀ g : HuffmanNode → HuffmanNode,
       (∀ x, freq (g x) = freq x) →
       extraction_order (g <$> xs) = g <$> extraction_order xs).
Proof.
  destruct (pop_all_sorted (length xs) (push_all xs)) as [Hp Hs].
  { apply Permutation_length, push_all_Permutation. }
  { apply push_all_heap. }
  split; [unfold extraction_order; by rewrite Hp, push_all_Permutation|].
  split; [done|].
  split; [apply extraction_order_first|].
  split; [intros b; apply first_min_spec|].
  intros g Hg. by apply extraction_order_fmap.
Qed.

(** ** Building the tree *)

Section build_tree.
Import PriorityQueue.
Implicit Types (q : list HuffmanNode) (n a b : HuffmanNode).

Lemma merge_loop_unfold fuel q :
  merge_loop fuel q =
    if bool_decide (1 < length q)%nat then
      match fuel with
      | O => OutOfFuel
      | S fuel' =>
          match pop q with
          | (Some l, q1) =>
              match pop q1 with
              | (Some r, q2) => merge_loop fuel' (push q2 (merged l r))
              | (None, _) => NullDeref
              end
          | (None, _) => NullDeref
          end
      end
    else Done q.
Proof. by destruct fuel. Qed.

(** The loop terminates within [length q] iterations, never dereferences
    a null pointer, and preserves every property that one iteration
    preserves. *)
Lemma merge_loop_inv (I : list HuffmanNode → Prop) :
  (∀ q l r q1 q2,
      I q → (1 < length q)%nat →
      pop q = (Some l, q1) → pop q1 = (Some r, q2) →
      I (push q2 (merged l r))) →
  ∀ fuel q,
    (length q ≤ fuel)%nat → I q →
    ∃ q', merge_loop fuel q = Done q' ∧ (length q' ≤ 1)%nat
          ∧ (q' = [] → q = []) ∧ I q'.
Proof.
  intros Hstep. induction fuel as [|fuel IH]; intros q Hlen HI;
    rewrite merge_loop_unfold.
  - rewrite bool_decide_eq_false_2 by lia. exists q.
    repeat split; [lia | done | done].
  - case_bool_decide as Hq.
    + destruct q as [|x q]; [simpl in Hq; lia|].
      destruct (pop (x :: q)) as [o q1] eqn:Hpop1.
      destruct (pop_length _ _ _ _ Hpop1) as [-> Hlen1].
      destruct q1 as [|y q1]; [simpl in *; lia|].
      destruct (pop (y :: q1)) as [o q2] eqn:Hpop2.
      destruct (pop_length _ _ _ _ Hpop2) as [-> Hlen2].
      destruct (IH (push q2 (merged x y))) as (q' & Hrun & Hq' & Hnil & HI').
      { rewrite push_length. simpl in *. lia. }
      { by eapply Hstep. }
      exists q'. repeat split; try done.
      intros E. apply Hnil in E.
      pose proof (push_length q2 (merged x y)) as Hp. by rewrite E in Hp.
    + exists q. repeat split; [lia | done | done].
Qed.

(** *** The leaves are those of the table *)

Lemma leaves_merged a b (f : Z) c :
  leaves (mkHuffmanNode c f (Some a) (Some b)) = leaves a ++ leaves b.
Proof. reflexivity. Qed.

Lemma push_table_foldl q table :
  push_table q table =
    foldl push q ((fun p => newHuffmanNode (getChar p) (getFreq p)) <$> table).
Proof. unfold push_table. by rewrite foldl_fmap. Qed.

Lemma forest_leaves_new table :
  forest_leaves ((fun p => newHuffmanNode (getChar p) (getFreq p)) <$> table)
  = cells table.
Proof.
  unfold forest_leaves, cells. induction table as [|p table IH]; [done|].
  rewrite !fmap_cons, bind_cons, IH. done.
Qed.

Lemma push_table_leaves table :
  forest_leaves (push_table [] table) ≡ₚ cells table.
Proof.
  rewrite push_table_foldl. unfold forest_leaves.
  rewrite foldl_push_Permutation. simpl. apply reflexive_eq, forest_leaves_new.
Qed.

Lemma push_table_length table :
  length (push_table [] table) = length table.
Proof.
  rewrite push_table_foldl.
  rewrite (Permutation_length (foldl_push_Permutation _ _)). simpl.
  apply length_fmap.
Qed.

Lemma merge_step_leaves q l r q1 q2 :
  (1 < length q)%nat →
  pop q = (Some l, q1) → pop q1 = (Some r, q2) →
  forest_leaves (push q2 (merged l r)) ≡ₚ forest_leaves q.
Proof.
  intros Hq Hpop1 Hpop2. unfold forest_leaves.
  destruct q as [|x q]; [simpl in Hq; lia|].
  destruct (pop_length _ _ _ _ Hpop1) as [[= <-] Hlen1].
  destruct q1 as [|y q1]; [simpl in *; lia|].
  destruct (pop_length _ _ _ _ Hpop2) as [[= <-] Hlen2].
  rewrite push_Permutation, bind_cons, leaves_merged.
  rewrite <- (pop_Permutation _ _ _ _ Hpop1), bind_cons.
  rewrite <- (pop_Permutation _ _ _ _ Hpop2), bind_cons.
  by rewrite <- app_assoc.
Qed.

(** [buildTree] returns: the root is null exactly for the empty table,
    and otherwise a tree whose leaves are the cells of the table. *)
Lemma buildTree_spec (table : FrequencyTable) :
  ∃ root, buildTree table = Done root
    ∧ match root with
      | None => head table = []
      | Some n => leaves n ≡ₚ cells (head table)
      end.
Proof.
  unfold buildTree.
  destruct (merge_loop_inv
              (fun q => forest_leaves q ≡ₚ cells (head table)))
    with (fuel := length (push_table [] (head table)))
         (q := push_table [] (head table))
    as (q' & -> & Hlen & Hnil & HI).
  { intros q l r q1 q2 HI Hq Hpop1 Hpop2.
    by rewrite (merge_step_leaves q l r q1 q2). }
  { done. }
  { apply push_table_leaves. }
  destruct q' as [|n [|??]]; [| |simpl in Hlen; lia].
  - exists None. split; [done|].
    specialize (Hnil eq_refl).
    pose proof (push_table_length (head table)) as Hl.
    rewrite Hnil in Hl. by destruct (head table).
  - exists (Some n). split; [done|].
    unfold forest_leaves in HI. rewrite bind_cons in HI. simpl in HI.
    by rewrite app_nil_r in HI.
Qed.

End build_tree.

(** ** The code table *)

Section codes.
Implicit Types (n a b : HuffmanNode) (c : ascii) (p k code : cstring)
               (codes : gmap ascii cstring) (paths : list (ascii * cstring)).

Lemma is_leaf_paths n : is_leaf n = true → leaf_paths n = [(Character n, [])].
Proof. destruct n as [C f [a|] [b|]]; done. Qed.

Lemma leaf_paths_inv C f l r c p :
  (c, p) ∈ leaf_paths (mkHuffmanNode C f l r) →
  (l = None ∧ r = None ∧ c = C ∧ p = [])
  ∨ (∃ a p', l = Some a ∧ p = "0"%char :: p' ∧ (c, p') ∈ leaf_paths a)
  ∨ (∃ b p', r = Some b ∧ p = "1"%char :: p' ∧ (c, p') ∈ leaf_paths b).
Proof.
  intros H.
  assert ((c, p) ∈
            match l with
            | Some a => (fun cp => (cp.1, "0"%char :: cp.2)) <$> leaf_paths a
            | None => []
            end ++
            match r with
            | Some b => (fun cp => (cp.1, "1"%char :: cp.2)) <$> leaf_paths b
            | None => []
            end
          ∨ (l = None ∧ r = None ∧ c = C ∧ p = [])) as Hcases.
  { destruct l, r; simpl in H; auto.
    apply list_elem_of_singleton in H. simplify_eq. by right. }
  destruct Hcases as [Hin|?]; [|by left].
  right. apply elem_of_app in Hin as [Hin|Hin].
  - left. destruct l as [a|]; [|by apply elem_of_nil in Hin].
    apply list_elem_of_fmap in Hin as ([c' p'] & [= -> ->] & Hin).
    by exists a, p'.
  - right. destruct r as [b|]; [|by apply elem_of_nil in Hin].
    apply list_elem_of_fmap in Hin as ([c' p'] & [= -> ->] & Hin).
    by exists b, p'.
Qed.

Lemma leaf_paths_left C f a r c p :
  (c, p) ∈ leaf_paths a →
  (c, "0"%char :: p) ∈ leaf_paths (mkHuffmanNode C f (Some a) r).
Proof.
  intros H. simpl. apply elem_of_app. left.
  apply list_elem_of_fmap. by exists (c, p).
Qed.

Lemma leaf_paths_right C f l b c p :
  (c, p) ∈ leaf_paths b →
  (c, "1"%char :: p) ∈ leaf_paths (mkHuffmanNode C f l (Some b)).
Proof.
  intros H.
  assert ((c, "1"%char :: p) ∈
            (fun cp => (cp.1, "1"%char :: cp.2)) <$> leaf_paths b) as Hin.
  { apply list_elem_of_fmap. by exists (c, p). }
  destruct l; simpl; [apply elem_of_app; by right | done].
Qed.

Lemma nonleaf_path_nonempty n c :
  is_leaf n = false → (c, []) ∉ leaf_paths n.
Proof.
  destruct n as [C f l r]. intros Hn Hin.
  apply leaf_paths_inv in Hin
    as [(-> & -> & _)|[(a & p' & _ & ? & _)|(b & p' & _ & ? & _)]]; done.
Qed.

(** Two leaves of one tree never have comparable paths. *)
Lemma leaf_paths_prefix n : ∀ c1 c2 p1 p2,
  (c1, p1) ∈ leaf_paths n → (c2, p2) ∈ leaf_paths n →
  p1 `prefix_of` p2 → c1 = c2 ∧ p1 = p2.
Proof.
  induction n as [C f l r IHl IHr] using HuffmanNode_tree_ind.
  intros c1 c2 p1 p2 H1 H2 Hpre.
  apply leaf_paths_inv in H1
    as [(-> & -> & -> & ->)|[(a & q1 & -> & -> & H1)|(b & q1 & -> & -> & H1)]].
  - apply leaf_paths_inv in H2
      as [(_ & _ & -> & ->)|[(a & q2 & ? & _)|(b & q2 & ? & _)]]; done.
  - apply leaf_paths_inv in H2
      as [(? & _)|[(a' & q2 & [= <-] & -> & H2)|(b & q2 & -> & -> & H2)]];
      [done | |].
    + apply prefix_cons_inv_2 in Hpre.
      destruct (IHl a eq_refl c1 c2 q1 q2) as [-> ->]; done.
    + by apply prefix_cons_inv_1 in Hpre.
  - apply leaf_paths_inv in H2
      as [(_ & ? & _)|[(a & q2 & -> & -> & H2)|(b' & q2 & [= <-] & -> & H2)]];
      [done | |].
    + by apply prefix_cons_inv_1 in Hpre.
    + apply prefix_cons_inv_2 in Hpre.
      destruct (IHr b eq_refl c1 c2 q1 q2) as [-> ->]; done.
Qed.

Lemma leaf_paths_fst n : (leaf_paths n).*1 = (leaves n).*1.
Proof.
  induction n as [C f l r IHl IHr] using HuffmanNode_tree_ind.
  assert (∀ (bit : ascii) paths,
            ((fun cp => (cp.1, bit :: cp.2)) <$> paths).*1 = paths.*1) as Hfst.
  { intros bit paths. rewrite <- list_fmap_compose. by apply list_fmap_ext. }
  destruct l as [a|], r as [b|]; simpl; rewrite ?fmap_app, ?Hfst;
    rewrite ?(IHl a), ?(IHr b); done.
Qed.

(** *** [buildCodes] records the path of every leaf *)

Lemma record_codes_bit code codes paths (bit : ascii) :
  record_codes code codes ((fun cp => (cp.1, bit :: cp.2)) <$> paths)
  = record_codes (code ++ [bit]) codes paths.
Proof.
  unfold record_codes. revert codes.
  induction paths as [|[c p] paths IH]; intros codes; [done|].
  rewrite fmap_cons. simpl. rewrite IH. unfold record_code at 2 4. simpl.
  by rewrite <- app_assoc.
Qed.

Lemma record_codes_app code codes paths1 paths2 :
  record_codes code codes (paths1 ++ paths2)
  = record_codes code (record_codes code codes paths1) paths2.
Proof. apply foldl_app. Qed.

Lemma buildCodes_record n : ∀ code codes,
  buildCodes n code codes = record_codes code codes (leaf_paths n).
Proof.
  induction n as [C f l r IHl IHr] using HuffmanNode_tree_ind.
  intros code codes. destruct l as [a|], r as [b|]; simpl.
  - rewrite record_codes_app, !record_codes_bit.
    by rewrite (IHl a), (IHr b).
  - rewrite app_nil_r, record_codes_bit. by rewrite (IHl a).
  - rewrite record_codes_bit. by rewrite (IHr b).
  - unfold record_codes, record_code. simpl. by rewrite app_nil_r.
Qed.

Lemma record_codes_lookup_Some paths : ∀ code codes c k,
  record_codes code codes paths !! c = Some k →
  (∃ p, (c, p) ∈ paths ∧ k = code ++ p) ∨ codes !! c = Some k.
Proof.
  induction paths as [|[c0 p0] paths IH]; intros code codes c k H; [by right|].
  apply IH in H as [(p & Hin & ->)|H].
  - left. exists p. split; [by right | done].
  - unfold record_code in H. simpl in H.
    destruct (decide (c0 = c)) as [->|Hne].
    + rewrite lookup_insert_eq in H. simplify_eq.
      left. exists p0. split; [by left | done].
    + rewrite lookup_insert_ne in H by done. by right.
Qed.

Lemma record_codes_lookup_other paths : ∀ code codes c,
  c ∉ paths.*1 → record_codes code codes paths !! c = codes !! c.
Proof.
  induction paths as [|[c0 p0] paths IH]; intros code codes c Hc; [done|].
  rewrite fmap_cons in Hc. apply not_elem_of_cons in Hc as [Hne Hc].
  unfold record_codes. simpl. fold (record_codes code (record_code code codes (c0, p0)) paths).
  rewrite IH by done. unfold record_code. simpl.
  by rewrite lookup_insert_ne.
Qed.

Lemma record_codes_lookup_NoDup paths : ∀ code codes c p,
  NoDup paths.*1 → (c, p) ∈ paths →
  record_codes code codes paths !! c = Some (code ++ p).
Proof.
  induction paths as [|[c0 p0] paths IH]; intros code codes c p Hnd Hin.
  - by apply elem_of_nil in Hin.
  - rewrite fmap_cons in Hnd. apply NoDup_cons in Hnd as [Hc0 Hnd].
    unfold record_codes. simpl.
    fold (record_codes code (record_code code codes (c0, p0)) paths).
    apply elem_of_cons in Hin as [[= -> ->]|Hin].
    + rewrite record_codes_lookup_other by done.
      unfold record_code. simpl. by rewrite lookup_insert_eq.
    + by apply IH.
Qed.

Lemma generateCodes_Some n c k :
  generateCodes (Some n) !! c = Some k → (c, k) ∈ leaf_paths n.
Proof.
  unfold generateCodes. simpl. rewrite buildCodes_record. intros H.
  apply record_codes_lookup_Some in H as [(p & Hin & ->)|H]; [done|].
  by rewrite lookup_empty in H.
Qed.

Lemma generateCodes_NoDup n c p :
  NoDup (leaves n).*1 → (c, p) ∈ leaf_paths n →
  generateCodes (Some n) !! c = Some p.
Proof.
  intros Hnd Hin. unfold generateCodes. simpl. rewrite buildCodes_record.
  rewrite <- leaf_paths_fst in Hnd.
  by rewrite (record_codes_lookup_NoDup _ [] ∅ c p).
Qed.

Lemma generateCodes_prefix_free root : prefix_free (generateCodes root).
Proof.
  destruct root as [n|].
  - intros c1 c2 k1 k2 Hne H1%generateCodes_Some H2%generateCodes_Some Hpre.
    by destruct (leaf_paths_prefix n c1 c2 k1 k2).
  - intros c1 c2 k1 k2 _ H1. unfold generateCodes in H1. simpl in H1.
    by rewrite lookup_empty in H1.
Qed.

End codes.

(** C3.  [buildTree] returns a tree for every frequency table, and in the
    code table generated from it no code is a prefix, proper or not, of the
    code of another symbol. *)
Theorem generated_codes_prefix_free (table : FrequencyTable) :
  ∃ root, buildTree table = Done root ∧ prefix_free (generateCodes root).
Proof.
  destruct (buildTree_spec table) as (root & Hroot & _).
  exists root. split; [done | apply generateCodes_prefix_free].
Qed.

(** ** Encoding *)

Section encoding.
Implicit Types (c : ascii) (input acc : cstring) (codes : gmap ascii cstring).

Lemma concat_codes_cons codes c input :
  concat_codes codes (c :: input)
  = default [] (codes !! c) ++ concat_codes codes input.
Proof. reflexivity. Qed.

Lemma concat_codes_insert_empty codes c input :
  codes !! c = None →
  concat_codes (<[c:=[]]> codes) input = concat_codes codes input.
Proof.
  intros Hc. induction input as [|x input IH]; [done|].
  rewrite !concat_codes_cons, IH. f_equal.
  destruct (decide (c = x)) as [->|].
  - by rewrite lookup_insert_eq, Hc.
  - by rewrite lookup_insert_ne.
Qed.

Lemma encodeString_spec input : ∀ acc codes,
  (encodeString input acc codes).1 = acc ++ concat_codes codes input
  ∧ ∀ c, (encodeString input acc codes).2 !! c =
           match codes !! c with
           | Some s => Some s
           | None => if decide (c ∈ input) then Some [] else None
           end.
Proof.
  induction input as [|x input IH]; intros acc codes.
  - simpl. split; [by rewrite app_nil_r|].
    intros c. by destruct (codes !! c).
  - change (encodeString (x :: input) acc codes)
      with (let '(s, codes') := subscript codes x in
            encodeString input (acc ++ s) codes').
    unfold subscript. destruct (codes !! x) as [s|] eqn:Hx.
    + destruct (IH (acc ++ s) codes) as [-> Hcodes].
      rewrite concat_codes_cons, Hx. simpl.
      split; [by rewrite app_assoc|].
      intros c. rewrite Hcodes. destruct (codes !! c) eqn:Hc; [done|].
      destruct (decide (c = x)) as [->|]; [congruence|].
      destruct (decide (c ∈ input)) as [Hin|Hin].
      * by rewrite decide_True by by right.
      * rewrite decide_False; [done|].
        by intros [?|?]%elem_of_cons.
    + destruct (IH (acc ++ []) (<[x:=[]]> codes)) as [-> Hcodes].
      rewrite concat_codes_cons, Hx, concat_codes_insert_empty by done. simpl.
      split; [by rewrite app_nil_r|].
      intros c. rewrite Hcodes. destruct (decide (c = x)) as [->|Hne].
      * rewrite lookup_insert_eq, Hx. by rewrite decide_True by by left.
      * rewrite lookup_insert_ne by done. destruct (codes !! c); [done|].
        destruct (decide (c ∈ input)) as [Hin|Hin].
        -- by rewrite decide_True by by right.
        -- rewrite decide_False; [done|].
           by intros [?|?]%elem_of_cons.
Qed.

End encoding.

(** C9 as stated fails: with "b" absent from the table, [encode] returns
    the bit-string "0" for the input "ab" and adds "b" to the table with the
    empty code. *)
Lemma encode_missing_symbol_returns :
  ({["a"%char := str "0"]} : gmap ascii cstring) !! "b"%char = None
  ∧ "b"%char ∈ str "ab"
  ∧ encode (str "ab") {["a"%char := str "0"]}
    = (str "0", <["b"%char := []]> {["a"%char := str "0"]}).
Proof.
  split; [done|]. split; [|done].
  unfold str. simpl. right. left.
Qed.

(** C9, amended.  [encode] returns a bit-string for every input and code
    table: the codes of the symbols in sequence, where a symbol that has no
    entry in the table contributes the empty string; and every such symbol
    is entered into the table with the empty code, the other entries staying
    as they are. *)
Theorem encode_missing_symbol (input : cstring) (codes : gmap ascii cstring) :
  (encode input codes).1 = concat_codes codes input
  ∧ ∀ c, (encode input codes).2 !! c =
           match codes !! c with
           | Some s => Some s
           | None => if decide (c ∈ input) then Some [] else None
           end.
Proof. apply (encodeString_spec input [] codes). Qed.

(** ** Decoding *)

Section decoding.
Implicit Types (n cur a b : HuffmanNode) (c bit : ascii)
               (p q rest dec input : cstring).

Lemma decode_loop_cons root cur bit rest dec :
  decode_loop root (Some cur) (bit :: rest) dec =
    match (if bool_decide (bit = "0"%char) then left cur else right cur) with
    | None => NullDeref
    | Some m =>
        if is_leaf m
        then decode_loop root root rest (dec ++ [Character m])
        else decode_loop root (Some m) rest dec
    end.
Proof.
  simpl. by destruct (if bool_decide (bit = "0"%char) then left cur else right cur).
Qed.

(** Following the path of a leaf from a node above it emits the symbol of
    the leaf and puts the cursor back on the root. *)
Lemma decode_loop_codeword root p : ∀ cur c rest dec,
  (c, p) ∈ leaf_paths cur → is_leaf cur = false →
  decode_loop root (Some cur) (p ++ rest) dec
  = decode_loop root root rest (dec ++ [c]).
Proof.
  induction p as [|bit p IH]; intros cur c rest dec Hin Hcur.
  - by apply nonleaf_path_nonempty in Hin.
  - destruct cur as [C f l r]. rewrite <- app_comm_cons, decode_loop_cons.
    apply leaf_paths_inv in Hin
      as [(-> & -> & _)|[(a & p' & -> & [= -> ->] & Hin)
                        |(b & p' & -> & [= -> ->] & Hin)]]; [done| |]; simpl.
    + destruct (is_leaf a) eqn:Ha.
      * rewrite (is_leaf_paths a Ha) in Hin.
        by apply list_elem_of_singleton in Hin as [= -> ->].
      * by apply IH.
    + destruct (is_leaf b) eqn:Hb.
      * rewrite (is_leaf_paths b Hb) in Hin.
        by apply list_elem_of_singleton in Hin as [= -> ->].
      * by apply IH.
Qed.

(** Following a proper prefix of the path of a leaf emits nothing and
    leaves the cursor on the node the prefix leads to. *)
Lemma decode_loop_partial root p : ∀ cur c q dec,
  (c, p ++ q) ∈ leaf_paths cur → q ≠ [] →
  decode_loop root (Some cur) p dec = Done (dec, subtree_at cur p)
  ∧ is_Some (subtree_at cur p).
Proof.
  induction p as [|bit p IH]; intros cur c q dec Hin Hq.
  { split; [reflexivity | by exists cur]. }
  destruct cur as [C f l r]. rewrite decode_loop_cons.
  rewrite <- app_comm_cons in Hin.
  apply leaf_paths_inv in Hin
    as [(_ & _ & _ & ?)|[(a & p' & -> & [= -> <-] & Hin)
                        |(b & p' & -> & [= -> <-] & Hin)]]; [done| |]; simpl.
  - destruct (is_leaf a) eqn:Ha; [|by eapply IH].
    rewrite (is_leaf_paths a Ha) in Hin.
    apply list_elem_of_singleton in Hin as [= _ Hnil].
    by apply app_eq_nil in Hnil as [_ ->].
  - destruct (is_leaf b) eqn:Hb; [|by eapply IH].
    rewrite (is_leaf_paths b Hb) in Hin.
    apply list_elem_of_singleton in Hin as [= _ Hnil].
    by apply app_eq_nil in Hnil as [_ ->].
Qed.

Lemma subtree_at_nodes p : ∀ n m,
  subtree_at n p = Some m → p ≠ [] → (nodes m < nodes n)%nat.
Proof.
  induction p as [|bit p IH]; intros n m H Hp; [done|].
  destruct n as [C f l r]. simpl in H.
  assert (∀ x, (if bool_decide (bit = "0"%char) then l else r) = Some x →
               (nodes x < nodes (mkHuffmanNode C f l r))%nat) as Hchild.
  { intros x Hx. case_bool_decide; subst; simpl; lia. }
  destruct (if bool_decide (bit = "0"%char) then l else r) as [x|]; [|done].
  specialize (Hchild x eq_refl).
  destruct p as [|bit' p]; [simpl in H; by simplify_eq|].
  specialize (IH x m H ltac:(done)). lia.
Qed.

Lemma subtree_at_proper p n m :
  subtree_at n p = Some m → p ≠ [] → m ≠ n.
Proof.
  intros H Hp ->. pose proof (subtree_at_nodes p n n H Hp). lia.
Qed.

(** A stream of whole codewords decodes to the symbols they stand for and
    ends with the cursor on the root. *)
Lemma decode_loop_codewords n (codes : gmap ascii cstring) input : ∀ rest dec,
  is_leaf n = false →
  (∀ c, c ∈ input → ∃ p, codes !! c = Some p ∧ (c, p) ∈ leaf_paths n) →
  decode_loop (Some n) (Some n) (concat_codes codes input ++ rest) dec
  = decode_loop (Some n) (Some n) rest (dec ++ input).
Proof.
  intros rest dec Hn. revert dec.
  induction input as [|c input IH]; intros dec Hcodes.
  - by rewrite app_nil_r.
  - destruct (Hcodes c) as (p & Hp & Hin); [by left|].
    rewrite concat_codes_cons, Hp. simpl. rewrite <- app_assoc.
    rewrite (decode_loop_codeword (Some n) p n c) by done.
    rewrite IH by (intros x Hx; apply Hcodes; by right).
    by rewrite <- app_assoc.
Qed.

(** On a tree in which every node is a leaf or has two children, and whose
    root is not a leaf, the loop runs to the end of every string. *)
Lemma full_children C f l r :
  full (mkHuffmanNode C f l r) = true →
  is_leaf (mkHuffmanNode C f l r) = false →
  ∃ a b, l = Some a ∧ r = Some b ∧ full a = true ∧ full b = true.
Proof.
  destruct l as [a|], r as [b|]; simpl; try done.
  intros [??]%andb_true_iff _. by exists a, b.
Qed.

Lemma decode_loop_full n encoded : ∀ cur dec,
  full n = true → is_leaf n = false →
  full cur = true → is_leaf cur = false →
  ∃ decoded cur',
    decode_loop (Some n) (Some cur) encoded dec = Done (decoded, Some cur').
Proof.
  intros cur dec Hn Hn'. revert cur dec.
  induction encoded as [|bit encoded IH]; intros cur dec Hcur Hcur'.
  - by exists dec, cur.
  - destruct cur as [C f l r]. rewrite decode_loop_cons.
    destruct (full_children C f l r Hcur Hcur') as (a & b & -> & -> & Ha & Hb).
    simpl. case_bool_decide.
    + destruct (is_leaf a) eqn:?; by apply IH.
    + destruct (is_leaf b) eqn:?; by apply IH.
Qed.

End decoding.

(** ** What [buildTree] builds *)

Section built_tree.
Import PriorityQueue.
Implicit Types (q : list HuffmanNode) (n l r : HuffmanNode).

Lemma pop_Some_Permutation q l q1 :
  pop q = (Some l, q1) → q ≡ₚ l :: q1.
Proof.
  destruct q as [|x q]; [done|]. intros Hpop.
  destruct (pop_length _ _ _ _ Hpop) as [[= <-] _].
  symmetry. by eapply pop_Permutation.
Qed.

Lemma merge_step_Permutation q l r q1 q2 :
  pop q = (Some l, q1) → pop q1 = (Some r, q2) →
  q ≡ₚ l :: r :: q2 ∧ push q2 (merged l r) ≡ₚ merged l r :: q2.
Proof.
  intros H1%pop_Some_Permutation H2%pop_Some_Permutation.
  split; [by rewrite H1, H2 | apply push_Permutation].
Qed.

(** *** Shape *)

Lemma buildTree_full (table : FrequencyTable) n :
  buildTree table = Done (Some n) → full n = true.
Proof.
  unfold buildTree.
  destruct (merge_loop_inv (Forall (fun t => full t = true)))
    with (fuel := length (push_table [] (head table)))
         (q := push_table [] (head table))
    as (q' & -> & Hlen & _ & HI).
  { intros q l r q1 q2 HI _ Hpop1 Hpop2.
    destruct (merge_step_Permutation q l r q1 q2) as [Hq ->]; [done..|].
    rewrite Hq in HI.
    apply Forall_cons in HI as [Hl HI]. apply Forall_cons in HI as [Hr HI].
    constructor; [|done]. simpl. by rewrite Hl, Hr. }
  { done. }
  { rewrite push_table_foldl, foldl_push_Permutation. simpl.
    apply Forall_fmap, Forall_true. done. }
  destruct q' as [|x [|??]]; [done| |simpl in Hlen; lia].
  intros [= <-]. by apply Forall_cons in HI as [? _].
Qed.

(** *** Weights *)

Lemma tree_ok_new c f : tree_ok (newHuffmanNode c f).
Proof. split; [done|]. simpl. unfold total. simpl. lia. Qed.

Lemma forest_total_cons n q :
  total (forest_leaves (n :: q)).*2
  = total (leaves n).*2 + total (forest_leaves q).*2.
Proof.
  unfold forest_leaves. by rewrite bind_cons, fmap_app, total_app.
Qed.

Lemma forest_nonneg_cons n q :
  Forall (fun x => 0 ≤ x) (forest_leaves (n :: q)).*2 →
  Forall (fun x => 0 ≤ x) (leaves n).*2
  ∧ Forall (fun x => 0 ≤ x) (forest_leaves q).*2.
Proof.
  unfold forest_leaves. rewrite bind_cons, fmap_app. apply Forall_app.
Qed.

Lemma buildTree_weights (table : FrequencyTable) n :
  Forall (fun p => 0 ≤ getFreq p) (head table) →
  total (getFreq <$> head table) ≤ INT_MAX →
  buildTree table = Done (Some n) →
  tree_ok n ∧ freq n = total (getFreq <$> head table).
Proof.
  intros Hpos Hmax. unfold buildTree.
  assert ((cells (head table)).*2 = getFreq <$> head table) as Hcells.
  { unfold cells. rewrite <- list_fmap_compose. by apply list_fmap_ext. }
  destruct (merge_loop_inv
              (fun q => Forall tree_ok q
                        ∧ forest_leaves q ≡ₚ cells (head table)))
    with (fuel := length (push_table [] (head table)))
         (q := push_table [] (head table))
    as (q' & -> & Hlen & _ & Hok & Hleaves).
  { intros q l r q1 q2 [Hok Hleaves] Hq Hpop1 Hpop2.
    split; [|by rewrite (merge_step_leaves q l r q1 q2)].
    destruct (merge_step_Permutation q l r q1 q2) as [Hperm ->]; [done..|].
    rewrite Hperm in Hok.
    apply Forall_cons in Hok as [[Hwl Hfl] Hok].
    apply Forall_cons in Hok as [[Hwr Hfr] Hok].
    constructor; [|done].
    assert (forest_leaves (l :: r :: q2) ≡ₚ cells (head table)) as Hall.
    { rewrite <- Hleaves. unfold forest_leaves. by rewrite Hperm. }
    assert (Forall (fun x => 0 ≤ x) (forest_leaves (l :: r :: q2)).*2) as Hnn.
    { rewrite Hall, Hcells. apply Forall_fmap.
      eapply Forall_impl; [done|]. done. }
    assert (total (forest_leaves (l :: r :: q2)).*2 ≤ INT_MAX) as Hbound.
    { by rewrite (total_Permutation _ _ (fmap_Permutation snd _ _ Hall)), Hcells. }
    rewrite !forest_total_cons in Hbound.
    apply forest_nonneg_cons in Hnn as [Hnl Hnn].
    apply forest_nonneg_cons in Hnn as [Hnr Hnn].
    apply total_nonneg in Hnl, Hnr, Hnn.
    assert (int_add (freq l) (freq r) = freq l + freq r) as Hadd.
    { unfold int_add. apply wrap_small. unfold INT_MIN. lia. }
    split.
    - simpl. rewrite Hadd, Hwl, Hwr. by rewrite bool_decide_eq_true_2.
    - rewrite leaves_merged, fmap_app, total_app. simpl. lia. }
  { done. }
  { split; [|apply push_table_leaves].
    rewrite push_table_foldl, foldl_push_Permutation. simpl.
    apply Forall_fmap, Forall_true. intros p. apply tree_ok_new. }
  destruct q' as [|x [|??]]; [done| |simpl in Hlen; lia].
  intros [= <-]. apply Forall_cons in Hok as [[Hw Hf] _].
  split; [done|]. rewrite Hf.
  unfold forest_leaves in Hleaves. rewrite bind_cons in Hleaves.
  simpl in Hleaves. rewrite app_nil_r in Hleaves.
  by rewrite (total_Permutation _ _ (fmap_Permutation snd _ _ Hleaves)), Hcells.
Qed.

End built_tree.

(** C4.  For every frequency table whose counts are non-negative and add up
    within the range of [int], [buildTree] returns a tree (the null root only
    for the empty table) in which the weight of every node with children is
    the sum of the weights of its two children, and the weight of the root
    is the sum of all counts of the table. *)
Theorem buildTree_weight_conservation (table : FrequencyTable) :
  Forall (fun p => 0 ≤ getFreq p) (head table) →
  total (getFreq <$> head table) ≤ INT_MAX →
  ∃ root, buildTree table = Done root
    ∧ match root with
      | None => head table = []
      | Some n =>
          weight_conserved n = true
          ∧ freq n = total (getFreq <$> head table)
      end.
Proof.
  intros Hpos Hmax.
  destruct (buildTree_spec table) as (root & Hroot & Hshape).
  exists root. split; [done|]. destruct root as [n|]; [|done].
  destruct (buildTree_weights table n Hpos Hmax Hroot) as [[Hw _] Hf]. done.
Qed.

Lemma buildTree_weight_conservation_witness :
  ∃ root, buildTree (feed newFrequencyTable (str "aabc")) = Done root
    ∧ match root with
      | None => head (feed newFrequencyTable (str "aabc")) = []
      | Some n =>
          weight_conserved n = true
          ∧ freq n = total (getFreq <$> head (feed newFrequencyTable (str "aabc")))
      end.
Proof.
  apply (buildTree_weight_conservation (feed newFrequencyTable (str "aabc"))).
  - vm_compute. repeat constructor; discriminate.
  - vm_compute. discriminate.
Defined.

(** ** The whole pipeline *)

Section pipeline.
Implicit Types (n : HuffmanNode) (c : ascii) (input : cstring).

Lemma is_leaf_leaves n : is_leaf n = true → leaves n = [(Character n, freq n)].
Proof. destruct n as [C f [a|] [b|]]; done. Qed.

Lemma cells_fst (table : list Node) : (cells table).*1 = getChar <$> table.
Proof. unfold cells. rewrite <- list_fmap_compose. by apply list_fmap_ext. Qed.

(** The tree built for an input with at least two distinct symbols. *)
Lemma buildTree_two_symbols input c1 c2 :
  c1 ∈ input → c2 ∈ input → c1 ≠ c2 →
  ∃ n, buildTree (feed newFrequencyTable input) = Done (Some n)
    ∧ is_leaf n = false ∧ full n = true
    ∧ NoDup (leaves n).*1 ∧ ∀ c, c ∈ (leaves n).*1 ↔ c ∈ input.
Proof.
  intros H1 H2 Hne.
  assert (input ≠ []) as Hinput by (intros ->; by apply elem_of_nil in H1).
  destruct (feed_nonempty input Hinput) as [Hhead _].
  destruct (foldl_count_char_chars input []) as [Hnd Hin]; [constructor|].
  destruct (buildTree_spec (feed newFrequencyTable input))
    as (root & Hroot & Hshape).
  rewrite Hhead in Hshape. destruct root as [n|].
  - assert ((leaves n).*1 ≡ₚ getChar <$> foldl count_char [] input) as Hperm.
    { by rewrite Hshape, cells_fst. }
    assert (∀ c, c ∈ (leaves n).*1 ↔ c ∈ input) as Hmem.
    { intros c. rewrite Hperm, Hin. rewrite elem_of_nil. tauto. }
    exists n. split; [done|]. split; [|split; [|split]].
    + destruct (is_leaf n) eqn:Hn; [|done].
      rewrite (is_leaf_leaves n Hn) in Hmem. simpl in Hmem.
      apply Hmem, list_elem_of_singleton in H1.
      apply Hmem, list_elem_of_singleton in H2. congruence.
    + by eapply buildTree_full.
    + by rewrite Hperm.
    + done.
  - assert (c1 ∈ getChar <$> foldl count_char [] input) as Hc1.
    { apply Hin. by right. }
    rewrite Hshape in Hc1. by apply elem_of_nil in Hc1.
Qed.

Lemma generateCodes_complete n c :
  NoDup (leaves n).*1 → c ∈ (leaves n).*1 →
  ∃ p, generateCodes (Some n) !! c = Some p ∧ (c, p) ∈ leaf_paths n.
Proof.
  intros Hnd Hc. rewrite <- leaf_paths_fst in Hc.
  apply list_elem_of_fmap in Hc as ([c' p] & -> & Hin). simpl.
  exists p. split; [by apply generateCodes_NoDup | done].
Qed.

Lemma decode_encoded n input :
  is_leaf n = false → NoDup (leaves n).*1 →
  (∀ c, c ∈ input → c ∈ (leaves n).*1) →
  decode_loop (Some n) (Some n)
              (encode input (generateCodes (Some n))).1 []
  = Done (input, Some n).
Proof.
  intros Hn Hnd Hin.
  destruct (encode_missing_symbol input (generateCodes (Some n))) as [-> _].
  rewrite <- (app_nil_r (concat_codes _ _)).
  rewrite decode_loop_codewords; [done | done |].
  intros c Hc. by apply generateCodes_complete, Hin.
Qed.

(** The run of the pipeline on an input in which at least two distinct
    symbols occur. *)
Lemma pipeline_two_symbols input c1 c2 :
  c1 ∈ input → c2 ∈ input → c1 ≠ c2 →
  ∃ r n, pipeline input = Done r
    ∧ run_root r = Some n
    ∧ run_encoded r = (encode input (generateCodes (Some n))).1
    ∧ run_decoded r = input
    ∧ is_leaf n = false ∧ full n = true
    ∧ NoDup (leaves n).*1 ∧ ∀ c, c ∈ (leaves n).*1 ↔ c ∈ input.
Proof.
  intros H1 H2 Hne.
  destruct (buildTree_two_symbols input c1 c2 H1 H2 Hne)
    as (n & Hroot & Hn & Hfull & Hnd & Hmem).
  pose proof (decode_encoded n input Hn Hnd (fun c => proj2 (Hmem c))) as Hdec.
  unfold pipeline. rewrite Hroot.
  destruct (encode input (generateCodes (Some n))) as [encoded codes] eqn:E.
  simpl in Hdec. unfold decode. rewrite Hdec.
  eexists _, n. rewrite E. repeat (split; [done|]). done.
Qed.

(** Round trip, for every input in which at least two distinct symbols
    occur: the pipeline returns, and what it decodes is the input. *)
Lemma roundtrip_two_symbols input c1 c2 :
  c1 ∈ input → c2 ∈ input → c1 ≠ c2 →
  ∃ r, pipeline input = Done r ∧ run_decoded r = input.
Proof.
  intros H1 H2 Hne.
  destruct (pipeline_two_symbols input c1 c2 H1 H2 Hne)
    as (r & n & Hr & _ & _ & Hdec & _).
  by exists r.
Qed.

(** *** Inputs made of one symbol *)

Lemma count_char_single c f (k : nat) :
  ∃ f', foldl count_char [mkNode c f] (replicate k c) = [mkNode c f'].
Proof.
  revert f. induction k as [|k IH]; intros f; [by exists f|].
  simpl. unfold count_char at 2. simpl.
  rewrite bool_decide_eq_true_2 by done. apply IH.
Qed.

Lemma concat_codes_single c (k : nat) :
  concat_codes {[c := []]} (replicate k c) = [].
Proof.
  induction k as [|k IH]; [done|].
  simpl. by rewrite concat_codes_cons, lookup_singleton_eq, IH.
Qed.

Lemma pipeline_single c (k : nat) :
  ∃ f, pipeline (replicate (S k) c)
       = Done (mkRun [mkNode c f] (Some (newHuffmanNode c f))
                     {[c := []]} [] []).
Proof.
  destruct (count_char_single c 1 k) as [f Hf]. exists f.
  unfold pipeline.
  assert (feed newFrequencyTable (replicate (S k) c)
          = mkFrequencyTable [mkNode c f] (replicate (S k) c)) as ->.
  { unfold feed, MakeTable. simpl. by rewrite <- Hf. }
  assert (buildTree (mkFrequencyTable [mkNode c f] (replicate (S k) c))
          = Done (Some (newHuffmanNode c f))) as -> by reflexivity.
  assert (generateCodes (Some (newHuffmanNode c f)) = {[c := []]}) as ->.
  { unfold generateCodes. simpl. apply insert_empty. }
  assert (encode (replicate (S k) c) {[c := []]} = ([], {[c := []]})) as ->.
  { destruct (encode_missing_symbol (replicate (S k) c) {[c := []]})
      as [H1 H2].
    rewrite concat_codes_single in H1.
    destruct (encode _ _) as [encoded codes]. simpl in *. subst. f_equal.
    apply map_eq. intros x. rewrite H2.
    destruct (decide (x = c)) as [->|Hx].
    - by rewrite lookup_singleton_eq.
    - rewrite lookup_singleton_ne by done. rewrite decide_False; [done|].
      by intros [?|[??]%elem_of_replicate]%elem_of_cons. }
  reflexivity.
Qed.

End pipeline.

(** C1.  The round trip fails on every input made of one repeated symbol:
    the pipeline returns, but the encoded string and the decoded string are
    both empty, so the decoded string differs from the input.  (For the
    inputs with two or more distinct symbols the round trip holds,
    [roundtrip_two_symbols].) *)
Theorem roundtrip_fails_single_symbol (c : ascii) (k : nat) :
  ∃ r, pipeline (replicate (S k) c) = Done r
    ∧ run_encoded r = []
    ∧ run_decoded r = []
    ∧ run_decoded r ≠ replicate (S k) c.
Proof.
  destruct (pipeline_single c k) as [f Hf].
  eexists. split; [exact Hf|]. by repeat split.
Qed.

(** C2.  For an input with one distinct symbol the tree is a single leaf,
    but the code table gives the symbol the empty code: "aaaa" is encoded
    as the empty string, which decodes to the empty string; and so it is for
    every input made of one repeated symbol. *)
Theorem singleton_alphabet_empty_code :
  pipeline (str "aaaa")
  = Done (mkRun [mkNode "a" 4] (Some (newHuffmanNode "a" 4))
                {["a"%char := []]} [] [])
  ∧ ∀ c (k : nat),
      ∃ f, pipeline (replicate (S k) c)
           = Done (mkRun [mkNode c f] (Some (newHuffmanNode c f))
                         {[c := []]} [] []).
Proof.
  split; [|apply pipeline_single].
  destruct (pipeline_single "a" 3) as [f Hf].
  change (replicate 4 "a"%char) with (str "aaaa") in Hf. rewrite Hf.
  assert (run_table <$> Some (mkRun [mkNode "a" f]
            (Some (newHuffmanNode "a" f)) {["a"%char := []]} [] [])
          = Some [mkNode "a" 4]) as [= ->]; [|done].
  assert (∀ r, pipeline (str "aaaa") = Done r →
               Some (run_table r) = Some [mkNode "a" 4]) as Htable.
  { intros r Hr. unfold pipeline in Hr.
    destruct (buildTree _) as [root| |]; [|done..].
    destruct (encode _ _) as [encoded codes].
    destruct (decode _ _); [|done..]. by simplify_eq. }
  by apply Htable.
Qed.

(** C7 as stated fails: for the input "abccc" the codes are a = 00, b = 01
    and c = 1; the encoded stream followed by one more '0' leaves the cursor
    on the left child of the root, and [decode] returns "abccc" all the
    same. *)
Lemma decode_trailing_zero_returns :
  ∃ r cur,
    pipeline (str "abccc") = Done r
    ∧ run_encoded r = str "0001111"
    ∧ decode_loop (run_root r) (run_root r) (run_encoded r ++ str "0") []
      = Done (str "abccc", cur)
    ∧ cur ≠ run_root r
    ∧ decode (run_root r) (run_encoded r ++ str "0") = Done (str "abccc").
Proof.
  destruct (pipeline (str "abccc")) as [r| |] eqn:E;
    [|by vm_compute in E..].
  vm_compute in E. injection E as <-.
  eexists _, _. split; [reflexivity|]. split; [reflexivity|].
  split; [reflexivity|]. split; [|reflexivity]. discriminate.
Qed.

(** C7, amended.  [decode] has no error for an incomplete codeword.  On the
    tree built for an input whose length fits an [int] and in which at least
    two distinct symbols occur, it returns a symbol sequence for every
    string it is given; and when a valid encoded stream (what [encode]
    produces, with the code table of this tree, for any message over the
    symbols of the input; the run's own encoded string is one) is followed
    by bits that stop part-way down the path of a codeword, so that the
    cursor ends away from the root, it returns the message and drops those
    bits. *)
Theorem decode_incomplete_codeword (input : cstring) (c1 c2 : ascii) :
  Z.of_nat (length input) ≤ INT_MAX →
  c1 ∈ input → c2 ∈ input → c1 ≠ c2 →
  ∃ r n,
    pipeline input = Done r ∧ run_root r = Some n
    ∧ (∀ encoded, ∃ decoded, decode (Some n) encoded = Done decoded)
    ∧ (∀ c p q,
         (c, p ++ q) ∈ leaf_paths n → p ≠ [] → q ≠ [] →
         ∃ cur,
           decode_loop (Some n) (Some n) (run_encoded r ++ p) []
           = Done (input, Some cur)
           ∧ cur ≠ n
           ∧ decode (Some n) (run_encoded r ++ p) = Done input)
    ∧ (∀ message c p q,
         (∀ x, x ∈ message → x ∈ input) →
         (c, p ++ q) ∈ leaf_paths n → p ≠ [] → q ≠ [] →
         ∃ cur,
           decode_loop (Some n) (Some n)
                       ((encode message (generateCodes (Some n))).1 ++ p) []
           = Done (message, Some cur)
           ∧ cur ≠ n
           ∧ decode (Some n) ((encode message (generateCodes (Some n))).1 ++ p)
             = Done message).
Proof.
  intros _ H1 H2 Hne.
  destruct (pipeline_two_symbols input c1 c2 H1 H2 Hne)
    as (r & n & Hr & Hroot & Henc & _ & Hn & Hfull & Hnd & Hmem).
  assert (∀ message c p q,
            (∀ x, x ∈ message → x ∈ input) →
            (c, p ++ q) ∈ leaf_paths n → p ≠ [] → q ≠ [] →
            ∃ cur,
              decode_loop (Some n) (Some n)
                          ((encode message (generateCodes (Some n))).1 ++ p) []
              = Done (message, Some cur)
              ∧ cur ≠ n
              ∧ decode (Some n)
                       ((encode message (generateCodes (Some n))).1 ++ p)
                = Done message) as Hany.
  { intros message c p q Hmsg Hin Hp Hq.
    destruct (decode_loop_partial (Some n) p n c q message Hin Hq)
      as [Hrun [cur Hcur]].
    assert (decode_loop (Some n) (Some n)
                        ((encode message (generateCodes (Some n))).1 ++ p) []
            = Done (message, Some cur)) as Hdec.
    { destruct (encode_missing_symbol message (generateCodes (Some n)))
        as [-> _].
      rewrite decode_loop_codewords; [simpl; by rewrite Hrun, Hcur | done |].
      intros x Hx. by apply generateCodes_complete, Hmem, Hmsg. }
    exists cur. split; [done|]. split.
    - by eapply subtree_at_proper.
    - unfold decode. by rewrite Hdec. }
  exists r, n. split; [done|]. split; [done|]. split; [|split; [|done]].
  - intros encoded. unfold decode.
    destruct (decode_loop_full n encoded n [] Hfull Hn Hfull Hn)
      as (decoded & cur & ->).
    by exists decoded.
  - intros c p q Hin Hp Hq. rewrite Henc.
    by apply (Hany input c p q).
Qed.

Lemma decode_incomplete_codeword_witness :
  ∃ r n, pipeline (str "abccc") = Done r ∧ run_root r = Some n
    ∧ ∀ encoded, ∃ decoded, decode (Some n) encoded = Done decoded.
Proof.
  destruct (decode_incomplete_codeword (str "abccc") "a" "b")
    as (r & n & Hr & Hroot & Hall & _).
  - vm_compute. discriminate.
  - unfold str. simpl. left.
  - unfold str. simpl. right. left.
  - discriminate.
  - exists r, n. exact (conj Hr (conj Hroot Hall)).
Defined.

(** * Further properties of the code *)

(** ** The frequency table, completely *)

Section table_contents.
Implicit Types (l : list Node) (c x : ascii) (s : cstring).

Lemma first_seen_elem s : ∀ c, c ∈ first_seen s ↔ c ∈ s.
Proof.
  induction s as [|y s IH]; intros c; simpl; [done|].
  rewrite !elem_of_cons, list_elem_of_filter, IH.
  destruct (decide (c = y)); tauto.
Qed.

Lemma first_seen_NoDup s : NoDup (first_seen s).
Proof.
  induction s as [|y s IH]; simpl; [constructor|].
  apply NoDup_cons. split; [|by apply NoDup_filter].
  rewrite list_elem_of_filter. by intros [Hy _].
Qed.

Lemma foldl_count_char_first_seen s : ∀ l,
  getChar <$> foldl count_char l s
  = (getChar <$> l) ++ filter (fun x => x ∉ getChar <$> l) (first_seen s).
Proof.
  induction s as [|y s IH]; intros l; simpl.
  - by rewrite app_nil_r.
  - rewrite IH, count_char_chars. case_decide as Hy.
    + rewrite filter_cons_False by (intros Hn; by apply Hn).
      f_equal. rewrite list_filter_filter_l; [done|].
      intros x Hx ->. by apply Hx.
    + rewrite filter_cons_True by done. rewrite <- app_assoc. simpl.
      do 2 f_equal. rewrite list_filter_filter. apply list_filter_iff.
      intros x. rewrite elem_of_app, list_elem_of_singleton. tauto.
Qed.

Lemma count_in_le_total l c :
  Forall (fun n => 1 ≤ getFreq n) l → 0 ≤ count_in l c ≤ total (getFreq <$> l).
Proof.
  induction 1 as [|n l Hn Hl IH]; [by cbn|].
  pose proof (total_nonneg _ (counts_nonneg l Hl)).
  rewrite fmap_cons, total_cons. cbn [count_in]. case_bool_decide; lia.
Qed.

Lemma count_in_absent l c : c ∉ getChar <$> l → count_in l c = 0.
Proof.
  induction l as [|n l IH]; [done|].
  rewrite fmap_cons, not_elem_of_cons. intros [Hne Hc]. cbn [count_in].
  rewrite bool_decide_eq_false_2 by congruence. by apply IH.
Qed.

Lemma scan_count_in c l l' x :
  count_in l c < INT_MAX → 0 ≤ count_in l c →
  scan c l = Some l' →
  count_in l' x = count_in l x + (if decide (x = c) then 1 else 0).
Proof.
  revert l'. induction l as [|n l IH]; intros l' Hmax Hmin H; simpl in *; [done|].
  case_bool_decide as Hn.
  - simplify_eq. simpl. unfold int_add.
    rewrite wrap_small by (unfold INT_MIN; lia).
    case_bool_decide; case_decide; simplify_eq; lia.
  - destruct (scan c l) as [r|] eqn:E; [|done]. simplify_eq. simpl.
    specialize (IH r Hmax Hmin eq_refl).
    case_bool_decide; case_decide; simplify_eq; lia.
Qed.

Lemma count_in_snoc l c x :
  c ∉ getChar <$> l →
  count_in (l ++ [mkNode c 1]) x
  = count_in l x + (if decide (x = c) then 1 else 0).
Proof.
  induction l as [|n l IH].
  - intros _. simpl. case_bool_decide; case_decide; simplify_eq; lia.
  - rewrite fmap_cons, not_elem_of_cons. intros [Hne Hc].
    specialize (IH Hc). simpl.
    case_bool_decide; case_decide; simplify_eq; lia.
Qed.

Lemma count_char_count_in l c x :
  Forall (fun n => 1 ≤ getFreq n) l → total (getFreq <$> l) < INT_MAX →
  count_in (count_char l c) x
  = count_in l x + (if decide (x = c) then 1 else 0).
Proof.
  intros Hl Hmax. pose proof (count_in_le_total l c Hl).
  unfold count_char. destruct (scan c l) as [l'|] eqn:E.
  - eapply scan_count_in; [lia | lia | done].
  - apply count_in_snoc. by apply scan_None.
Qed.

Lemma occurrences_cons c y s :
  occurrences c (y :: s) = (if decide (c = y) then 1 else 0) + occurrences c s.
Proof.
  unfold occurrences. case_decide as Hc.
  - rewrite filter_cons_True by done. simpl length. lia.
  - rewrite filter_cons_False by done. lia.
Qed.

Lemma foldl_count_char_count_in s : ∀ l x,
  Forall (fun n => 1 ≤ getFreq n) l →
  total (getFreq <$> l) + Z.of_nat (length s) ≤ INT_MAX →
  count_in (foldl count_char l s) x = count_in l x + occurrences x s.
Proof.
  induction s as [|y s IH]; intros l x Hl Hmax; simpl in *.
  - unfold occurrences. simpl. lia.
  - destruct (count_char_total l y) as [H1 H2]; [done | lia |].
    rewrite IH by (done || lia).
    rewrite count_char_count_in by (done || lia).
    rewrite occurrences_cons. lia.
Qed.

(** A list of cells with distinct symbols is determined by its symbols and
    the counts it holds for them. *)
Lemma cells_by_count_in l :
  NoDup (getChar <$> l) →
  l = (fun c => mkNode c (count_in l c)) <$> (getChar <$> l).
Proof.
  induction l as [|n l IH]; [done|].
  rewrite !fmap_cons, NoDup_cons. intros [Hn Hnd]. cbn [count_in].
  rewrite bool_decide_eq_true_2 by done. f_equal; [by destruct n|].
  etrans; [exact (IH Hnd)|].
  apply list_fmap_ext. intros i c Hc.
  rewrite bool_decide_eq_false_2; [done|].
  intros <-. apply Hn. by eapply list_elem_of_lookup_2.
Qed.

Lemma feed_new_head s : head (feed newFrequencyTable s) = foldl count_char [] s.
Proof. by destruct s. Qed.

End table_contents.

Lemma feed_chars (s : cstring) :
  getChar <$> head (feed newFrequencyTable s) = first_seen s.
Proof.
  rewrite feed_new_head, foldl_count_char_first_seen. simpl.
  induction (first_seen s) as [|y l IH]; [done|].
  rewrite filter_cons_True by apply not_elem_of_nil. by rewrite IH.
Qed.

Lemma feed_counts (s : cstring) :
  Z.of_nat (length s) ≤ INT_MAX →
  head (feed newFrequencyTable s)
  = (fun c => mkNode c (occurrences c s)) <$> first_seen s.
Proof.
  intros Hlen.
  rewrite (cells_by_count_in (head (feed newFrequencyTable s))), feed_chars.
  - apply list_fmap_ext. intros i c _.
    rewrite feed_new_head, foldl_count_char_count_in; [done | constructor |].
    unfold total. simpl. lia.
  - rewrite feed_chars. apply first_seen_NoDup.
Qed.

(** X1.  For an input whose length fits an [int], the table [MakeTable]
    builds on a fresh object lists the distinct symbols of the input, each
    once, in the order in which they first occur in the input. *)
Theorem MakeTable_first_seen (s : cstring) :
  Z.of_nat (length s) ≤ INT_MAX →
  getChar <$> head (feed newFrequencyTable s) = first_seen s
  ∧ NoDup (first_seen s)
  ∧ ∀ c, c ∈ first_seen s ↔ c ∈ s.
Proof.
  intros _. split; [apply feed_chars|].
  split; [apply first_seen_NoDup | apply first_seen_elem].
Qed.

Lemma MakeTable_first_seen_witness :
  getChar <$> head (feed newFrequencyTable (str "abracadabra"))
  = str "abrcd".
Proof.
  destruct (MakeTable_first_seen (str "abracadabra")) as [H _].
  - vm_compute. discriminate.
  - rewrite H. reflexivity.
Defined.

(** X2.  For an input whose length fits an [int], the table [MakeTable]
    builds holds, for each distinct symbol in first-occurrence order, exactly
    the number of its occurrences in the input. *)
Theorem MakeTable_counts (s : cstring) :
  Z.of_nat (length s) ≤ INT_MAX →
  head (feed newFrequencyTable s)
  = (fun c => mkNode c (occurrences c s)) <$> first_seen s.
Proof. apply feed_counts. Qed.

Lemma MakeTable_counts_witness :
  head (feed newFrequencyTable (str "abracadabra"))
  = [mkNode "a" 5; mkNode "b" 2; mkNode "r" 2; mkNode "c" 1; mkNode "d" 1].
Proof.
  rewrite (MakeTable_counts (str "abracadabra")); [reflexivity|].
  vm_compute. discriminate.
Defined.

(** ** The queue in use *)

Lemma pop_contents (q : list HuffmanNode) :
  match PriorityQueue.pop q with
  | (None, q') => q = [] ∧ q' = []
  | (Some x, q') => q !! 0%nat = Some x ∧ q ≡ₚ x :: q' ∧ S (length q') = length q
  end.
Proof.
  destruct q as [|root q]; [done|].
  destruct (PriorityQueue.pop (root :: q)) as [o q'] eqn:Hpop.
  destruct (pop_length _ _ _ _ Hpop) as [-> Hlen].
  split; [done|]. split; [|simpl; lia].
  symmetry. by eapply pop_Permutation.
Qed.

Lemma run_op_heap (q : list HuffmanNode) (op : pq_op) :
  heap_ordered q → heap_ordered (run_op q op).
Proof.
  intros Hq. destruct op as [node|]; simpl; [by apply push_heap|].
  destruct q as [|root q]; [done|].
  eapply pop_heap; [done|]. apply surjective_pairing.
Qed.

(** X3.  [push] on a queue in heap order leaves a queue in heap order that
    holds the old contents and the new node, one element more. *)
Theorem push_keeps_heap (queue : list HuffmanNode) (node : HuffmanNode) :
  is_heap queue = true →
  is_heap (PriorityQueue.push queue node) = true
  ∧ PriorityQueue.push queue node ≡ₚ node :: queue
  ∧ length (PriorityQueue.push queue node) = S (length queue).
Proof.
  intros Hq%is_heap_spec. split; [|split].
  - by apply is_heap_spec, push_heap.
  - apply push_Permutation.
  - apply push_length.
Qed.

Lemma push_keeps_heap_witness :
  is_heap (PriorityQueue.push
             [newHuffmanNode "a" 2; newHuffmanNode "b" 5; newHuffmanNode "c" 3]
             (newHuffmanNode "d" 1)) = true.
Proof.
  apply (push_keeps_heap
           [newHuffmanNode "a" 2; newHuffmanNode "b" 5; newHuffmanNode "c" 3]
           (newHuffmanNode "d" 1)).
  reflexivity.
Defined.

(** X4.  Whatever calls of [push] and [pop] are made on a queue that starts
    empty, in any order (a [pop] on the empty queue included), the queue is
    in heap order afterwards. *)
Theorem queue_always_heap (ops : list pq_op) : is_heap (run_ops ops) = true.
Proof.
  apply is_heap_spec. unfold run_ops.
  assert (∀ q, heap_ordered q → heap_ordered (foldl run_op q ops)) as H.
  { induction ops as [|op ops IH]; intros q Hq; simpl; [done|].
    by apply IH, run_op_heap. }
  apply H, heap_ordered_nil.
Qed.

(** X5.  [pop] never loses or duplicates a node, whatever the order of the
    queue: on the empty queue it returns the null pointer and leaves the
    queue empty; otherwise it returns the node at index 0 and leaves exactly
    the other nodes, one element fewer. *)
Theorem pop_keeps_contents (queue : list HuffmanNode) :
  match PriorityQueue.pop queue with
  | (None, queue') => queue = [] ∧ queue' = []
  | (Some x, queue') =>
      queue !! 0%nat = Some x ∧ queue ≡ₚ x :: queue'
      ∧ S (length queue') = length queue
  end.
Proof. apply pop_contents. Qed.

(** ** The shape of the tree *)

Section tree_shape.
Import PriorityQueue.
Implicit Types (q : list HuffmanNode) (n l r : HuffmanNode).

Lemma full_leaves n :
  full n = true →
  (1 ≤ length (leaves n))%nat ∧ nodes n = (2 * length (leaves n) - 1)%nat.
Proof.
  induction n as [C f l r IHl IHr] using HuffmanNode_tree_ind.
  destruct l as [a|], r as [b|]; simpl; try done; try (intros _; lia).
  intros [Ha Hb]%andb_true_iff.
  destruct (IHl a eq_refl Ha). destruct (IHr b eq_refl Hb).
  rewrite length_app. lia.
Qed.

Lemma full_leaf_iff n :
  full n = true → is_leaf n = true ↔ length (leaves n) = 1%nat.
Proof.
  destruct n as [C f [a|] [b|]]; simpl; try done.
  intros [Ha Hb]%andb_true_iff.
  destruct (full_leaves a Ha). destruct (full_leaves b Hb).
  rewrite length_app. split; [done | lia].
Qed.

Lemma left_lighter_merged l r :
  freq l ≤ freq r → left_lighter l = true → left_lighter r = true →
  left_lighter (merged l r) = true.
Proof.
  intros Hle Hl Hr. simpl. rewrite Hl, Hr.
  by rewrite bool_decide_eq_true_2.
Qed.

Lemma buildTree_lighter_inv (table : FrequencyTable) n :
  buildTree table = Done (Some n) → left_lighter n = true.
Proof.
  unfold buildTree.
  destruct (merge_loop_inv
              (fun q => heap_ordered q ∧ Forall (fun t => left_lighter t = true) q))
    with (fuel := length (push_table [] (head table)))
         (q := push_table [] (head table))
    as (q' & -> & Hlen & _ & _ & HI).
  { intros q l r q1 q2 [Hq HI] _ Hpop1 Hpop2.
    pose proof (pop_contents q) as H1. rewrite Hpop1 in H1.
    destruct H1 as (Hl & Hperm1 & _).
    pose proof (pop_contents q1) as H2. rewrite Hpop2 in H2.
    destruct H2 as (Hr & Hperm2 & _).
    assert (heap_ordered q1) as Hq1.
    { destruct q as [|x q]; [done|]. by eapply pop_heap. }
    assert (heap_ordered q2) as Hq2.
    { destruct q1 as [|x q1]; [done|]. by eapply pop_heap. }
    assert (freq l ≤ freq r) as Hle.
    { apply (heap_root_least q); [done | done |].
      rewrite Hperm1. right. by eapply list_elem_of_lookup_2. }
    split; [by apply push_heap|].
    rewrite push_Permutation. rewrite Hperm1, Hperm2 in HI.
    apply Forall_cons in HI as [Hl' HI]. apply Forall_cons in HI as [Hr' HI].
    constructor; [by apply left_lighter_merged | done]. }
  { done. }
  { rewrite push_table_foldl. split.
    - apply foldl_push_heap, heap_ordered_nil.
    - rewrite foldl_push_Permutation. simpl.
      apply Forall_fmap, Forall_true. done. }
  destruct q' as [|x [|??]]; [done| |simpl in Hlen; lia].
  intros [= <-]. by apply Forall_cons in HI as [? _].
Qed.

End tree_shape.

(** X6.  [buildTree] returns for every table; the root is null only for the
    empty table, and otherwise the tree has exactly the cells of the table
    as its leaves (each symbol with its count, once), every node is a leaf
    or has two children, a table of k cells gives 2k - 1 nodes, and the root
    is a leaf exactly when the table has one cell. *)
Theorem buildTree_shape (table : FrequencyTable) :
  ∃ root, buildTree table = Done root
    ∧ match root with
      | None => head table = []
      | Some n =>
          leaves n ≡ₚ cells (head table)
          ∧ full n = true
          ∧ nodes n = (2 * length (head table) - 1)%nat
          ∧ (is_leaf n = true ↔ length (head table) = 1%nat)
      end.
Proof.
  destruct (buildTree_spec table) as (root & Hroot & Hshape).
  exists root. split; [done|]. destruct root as [n|]; [|done].
  pose proof (buildTree_full table n Hroot) as Hfull.
  pose proof (Permutation_length Hshape) as Hlen.
  unfold cells in Hlen. rewrite length_fmap in Hlen.
  split; [done|]. split; [done|]. rewrite <- Hlen. split.
  - by apply full_leaves.
  - by apply full_leaf_iff.
Qed.

(** X7.  In the tree [buildTree] returns, at every node with children the
    left child (the node extracted first) is no heavier than the right
    child. *)
Theorem buildTree_left_lighter (table : FrequencyTable) :
  ∃ root, buildTree table = Done root
    ∧ match root with
      | None => head table = []
      | Some n => left_lighter n = true
      end.
Proof.
  destruct (buildTree_spec table) as (root & Hroot & Hshape).
  exists root. split; [done|]. destruct root as [n|]; [|done].
  by eapply buildTree_lighter_inv.
Qed.

(** X8.  For a non-empty input whose length fits an [int], the pipeline's
    tree conserves weights and the weight of its root is the length of the
    input. *)
Theorem root_weight_is_length (s : cstring) :
  s ≠ [] → Z.of_nat (length s) ≤ INT_MAX →
  ∃ n, buildTree (feed newFrequencyTable s) = Done (Some n)
    ∧ weight_conserved n = true
    ∧ freq n = Z.of_nat (length s).
Proof.
  intros Hs Hlen.
  destruct (foldl_count_char_total s []) as [Hpos Htotal]; [constructor | done |].
  rewrite <- feed_new_head in Hpos, Htotal.
  destruct (buildTree_spec (feed newFrequencyTable s)) as (root & Hroot & Hshape).
  destruct root as [n|].
  - exists n. split; [done|].
    destruct (buildTree_weights (feed newFrequencyTable s) n) as [[Hw _] Hf].
    + eapply Forall_impl; [exact Hpos|]. simpl. lia.
    + rewrite Htotal. done.
    + done.
    + split; [done|]. rewrite Hf, Htotal. done.
  - rewrite feed_new_head in Hshape.
    by apply foldl_count_char_nonempty in Hshape.
Qed.

Lemma root_weight_is_length_witness :
  ∃ n, buildTree (feed newFrequencyTable (str "abracadabra")) = Done (Some n)
    ∧ weight_conserved n = true
    ∧ freq n = 11.
Proof.
  apply (root_weight_is_length (str "abracadabra")).
  - discriminate.
  - vm_compute. discriminate.
Defined.

(** ** Codes, encoding and decoding on any tree *)

Section any_tree.
Implicit Types (n a b : HuffmanNode) (c : ascii) (p k input rest dec : cstring)
               (codes : gmap ascii cstring).

Lemma leaf_paths_bits n : ∀ c p, (c, p) ∈ leaf_paths n → Forall is_bit p.
Proof.
  induction n as [C f l r IHl IHr] using HuffmanNode_tree_ind.
  intros c p Hin.
  apply leaf_paths_inv in Hin
    as [(_ & _ & _ & ->)|[(a & q & -> & -> & Hin)|(b & q & -> & -> & Hin)]].
  - constructor.
  - constructor; [by left | by eapply IHl].
  - constructor; [by right | by eapply IHr].
Qed.

Lemma leaf_path_length n : ∀ c p,
  full n = true → (c, p) ∈ leaf_paths n → (length p < length (leaves n))%nat.
Proof.
  induction n as [C f l r IHl IHr] using HuffmanNode_tree_ind.
  intros c p Hfull Hin.
  apply leaf_paths_inv in Hin
    as [(-> & -> & _ & ->)|[(a & q & -> & -> & Hin)|(b & q & -> & -> & Hin)]].
  - simpl. lia.
  - destruct r as [b|]; [|done]. simpl in Hfull.
    apply andb_true_iff in Hfull as [Ha Hb].
    specialize (IHl a eq_refl c q Ha Hin). destruct (full_leaves b Hb).
    rewrite leaves_merged, length_app. simpl. lia.
  - destruct l as [a|]; [|done]. simpl in Hfull.
    apply andb_true_iff in Hfull as [Ha Hb].
    specialize (IHr b eq_refl c q Hb Hin). destruct (full_leaves a Ha).
    rewrite leaves_merged, length_app. simpl. lia.
Qed.

Lemma record_codes_is_Some paths : ∀ code codes c,
  c ∈ paths.*1 ∨ is_Some (codes !! c) →
  is_Some (record_codes code codes paths !! c).
Proof.
  induction paths as [|[c0 p0] paths IH]; intros code codes c H.
  - destruct H as [H|H]; [by apply elem_of_nil in H | done].
  - unfold record_codes. simpl.
    fold (record_codes code (record_code code codes (c0, p0)) paths).
    apply IH. rewrite fmap_cons, elem_of_cons in H. unfold record_code. simpl.
    destruct (decide (c = c0)) as [->|Hne].
    + right. rewrite lookup_insert_eq. by eexists.
    + rewrite lookup_insert_ne by done. destruct H as [[?|?]|?]; tauto.
Qed.

(** The symbols that have a code are the symbols of the leaves. *)
Lemma generateCodes_dom n c :
  is_Some (generateCodes (Some n) !! c) ↔ c ∈ (leaves n).*1.
Proof.
  rewrite <- leaf_paths_fst. split.
  - intros [k Hk]. apply generateCodes_Some in Hk.
    apply list_elem_of_fmap. by exists (c, k).
  - intros Hc. unfold generateCodes. simpl. rewrite buildCodes_record.
    apply record_codes_is_Some. by left.
Qed.

(** Whole codewords decode to their symbols; a symbol without a code has
    contributed nothing and is missing from the result. *)
Lemma decode_loop_known n codes input : ∀ rest dec,
  is_leaf n = false →
  (∀ c p, codes !! c = Some p → (c, p) ∈ leaf_paths n) →
  decode_loop (Some n) (Some n) (concat_codes codes input ++ rest) dec
  = decode_loop (Some n) (Some n) rest
      (dec ++ filter (fun c => is_Some (codes !! c)) input).
Proof.
  intros rest dec Hn Hcodes. revert dec.
  induction input as [|c input IH]; intros dec.
  - by rewrite app_nil_r.
  - rewrite concat_codes_cons. destruct (codes !! c) as [p|] eqn:Hp; simpl.
    + rewrite filter_cons_True by (by rewrite Hp).
      rewrite <- app_assoc.
      rewrite (decode_loop_codeword (Some n) p n c) by auto.
      rewrite IH. by rewrite <- app_assoc.
    + rewrite filter_cons_False by (rewrite Hp; by intros [??]).
      apply IH.
Qed.

Lemma decode_encode_any n input :
  is_leaf n = false →
  decode_loop (Some n) (Some n) (encode input (generateCodes (Some n))).1 []
  = Done (filter (fun c => c ∈ (leaves n).*1) input, Some n).
Proof.
  intros Hn.
  destruct (encode_missing_symbol input (generateCodes (Some n))) as [-> _].
  rewrite <- (app_nil_r (concat_codes _ _)).
  rewrite decode_loop_known by (done || apply generateCodes_Some).
  simpl. do 2 f_equal. apply list_filter_iff. intros c.
  apply generateCodes_dom.
Qed.

(** [encode] leaves the table as it is when every symbol has a code. *)
Lemma encode_keeps_codes input codes :
  (∀ c, c ∈ input → is_Some (codes !! c)) →
  (encode input codes).2 = codes.
Proof.
  intros Hin. destruct (encode_missing_symbol input codes) as [_ H].
  apply map_eq. intros c. rewrite H.
  destruct (codes !! c) eqn:Hc; [done|].
  case_decide as Hc'; [|done].
  apply Hin in Hc'. rewrite Hc in Hc'. by destruct Hc'.
Qed.

Lemma decode_loop_as_bit root encoded : ∀ current dec,
  decode_loop root current (as_bit <$> encoded) dec
  = decode_loop root current encoded dec.
Proof.
  induction encoded as [|bit encoded IH]; intros current dec; [done|].
  rewrite fmap_cons. destruct current as [cur|]; [|done].
  rewrite !decode_loop_cons.
  assert (bool_decide (as_bit bit = "0"%char) = bool_decide (bit = "0"%char))
    as ->.
  { unfold as_bit. by destruct (bool_decide (bit = "0"%char)). }
  destruct (if bool_decide (bit = "0"%char) then left cur else right cur)
    as [m|]; [|done].
  destruct (is_leaf m); apply IH.
Qed.

End any_tree.

(** ** Runs of the pipeline *)

Section runs.
Implicit Types (n : HuffmanNode) (c : ascii) (input s : cstring)
               (codes : gmap ascii cstring) (t : FrequencyTable).

Lemma filter_all {A} (P : A → Prop) `{!∀ x, Decision (P x)} (l : list A) :
  (∀ x, x ∈ l → P x) → filter P l = l.
Proof.
  induction l as [|y l IH]; intros Hall; [done|].
  rewrite filter_cons_True by (apply Hall; by left).
  rewrite IH; [done|]. intros x Hx. apply Hall. by right.
Qed.

Lemma buildTree_head t t' : head t = head t' → buildTree t = buildTree t'.
Proof. unfold buildTree. by intros ->. Qed.

(** One pass over a table from which [buildTree] gets a tree with a root
    that is not a leaf. *)
Lemma iteration_on_tree t s n :
  buildTree (feed t s) = Done (Some n) → is_leaf n = false →
  iteration t s
  = Done (feed t s,
          mkRun (head (feed t s)) (Some n)
                (encode s (generateCodes (Some n))).2
                (encode s (generateCodes (Some n))).1
                (filter (fun c => c ∈ (leaves n).*1) s)).
Proof.
  intros Hroot Hn. unfold iteration. rewrite Hroot.
  pose proof (decode_encode_any n s Hn) as Hdec.
  destruct (encode s (generateCodes (Some n))) as [encoded codes].
  simpl in *. unfold decode. by rewrite Hdec.
Qed.

Lemma pipeline_on_tree s n :
  buildTree (feed newFrequencyTable s) = Done (Some n) → is_leaf n = false →
  pipeline s
  = Done (mkRun (head (feed newFrequencyTable s)) (Some n)
                (encode s (generateCodes (Some n))).2
                (encode s (generateCodes (Some n))).1
                (filter (fun c => c ∈ (leaves n).*1) s)).
Proof.
  intros Hroot Hn. unfold pipeline. rewrite Hroot.
  pose proof (decode_encode_any n s Hn) as Hdec.
  destruct (encode s (generateCodes (Some n))) as [encoded codes].
  simpl in *. unfold decode. by rewrite Hdec.
Qed.

Lemma concat_codes_bits codes input :
  (∀ c k, codes !! c = Some k → Forall is_bit k) →
  Forall is_bit (concat_codes codes input).
Proof.
  intros Hcodes. induction input as [|c input IH]; [constructor|].
  rewrite concat_codes_cons. apply Forall_app. split; [|done].
  destruct (codes !! c) as [k|] eqn:Hk; [by eapply Hcodes | constructor].
Qed.

Lemma concat_codes_length codes input :
  (∀ c, c ∈ input → ∃ k, codes !! c = Some k ∧ k ≠ []) →
  (length input ≤ length (concat_codes codes input))%nat.
Proof.
  induction input as [|c input IH]; intros H; [done|].
  rewrite concat_codes_cons, length_app.
  destruct (H c) as (k & -> & Hk); [by left|].
  assert (length input ≤ length (concat_codes codes input))%nat
    by (apply IH; intros x Hx; apply H; by right).
  destruct k; [done|]. simpl. lia.
Qed.

(** The run on an input in which at least two distinct symbols occur. *)
Lemma pipeline_run input c1 c2 :
  c1 ∈ input → c2 ∈ input → c1 ≠ c2 →
  ∃ n, buildTree (feed newFrequencyTable input) = Done (Some n)
    ∧ pipeline input
      = Done (mkRun (head (feed newFrequencyTable input)) (Some n)
                    (generateCodes (Some n))
                    (concat_codes (generateCodes (Some n)) input) input)
    ∧ is_leaf n = false ∧ full n = true
    ∧ leaves n ≡ₚ cells (head (feed newFrequencyTable input))
    ∧ ∀ c, c ∈ (leaves n).*1 ↔ c ∈ input.
Proof.
  intros H1 H2 Hne.
  destruct (buildTree_two_symbols input c1 c2 H1 H2 Hne)
    as (n & Hroot & Hn & Hfull & Hnd & Hmem).
  exists n. split; [done|]. split; [|split; [done|split; [done|split; [|done]]]].
  - rewrite (pipeline_on_tree input n Hroot Hn).
    rewrite encode_keeps_codes
      by (intros c Hc; by apply generateCodes_dom, Hmem).
    destruct (encode_missing_symbol input (generateCodes (Some n))) as [-> _].
    rewrite filter_all by (intros c Hc; by apply Hmem). done.
  - destruct (buildTree_spec (feed newFrequencyTable input))
      as (root & Hroot' & Hshape).
    rewrite Hroot in Hroot'. by simplify_eq.
Qed.

End runs.

(** X9.  For an input whose length fits an [int] and in which at least two
    distinct symbols occur, the code table of the run has an entry for
    exactly the symbols of the input; each code is the path to the symbol's
    leaf, is not empty, consists of the characters '0' and '1' only and is
    shorter than the number of distinct symbols; and [encode] leaves this
    table as [generateCodes] made it. *)
Theorem pipeline_code_table (input : cstring) (c1 c2 : ascii) :
  Z.of_nat (length input) ≤ INT_MAX →
  c1 ∈ input → c2 ∈ input → c1 ≠ c2 →
  ∃ r n,
    pipeline input = Done r ∧ run_root r = Some n
    ∧ run_codes r = generateCodes (Some n)
    ∧ (∀ c, is_Some (run_codes r !! c) ↔ c ∈ input)
    ∧ ∀ c k, run_codes r !! c = Some k →
        (c, k) ∈ leaf_paths n ∧ k ≠ [] ∧ Forall is_bit k
        ∧ (length k < length (first_seen input))%nat.
Proof.
  intros _ H1 H2 Hne.
  destruct (pipeline_run input c1 c2 H1 H2 Hne)
    as (n & Hroot & -> & Hn & Hfull & Hleaves & Hmem).
  eexists _, n. split; [done|]. cbn [run_root run_codes].
  split; [done|]. split; [done|]. split.
  - intros c. by rewrite generateCodes_dom.
  - intros c k Hk%generateCodes_Some.
    split; [done|]. split; [|split].
    + intros ->. by apply nonleaf_path_nonempty in Hk.
    + by eapply leaf_paths_bits.
    + rewrite <- (feed_chars input), length_fmap.
      replace (length (head (feed newFrequencyTable input)))
        with (length (leaves n)); [by eapply leaf_path_length|].
      rewrite (Permutation_length Hleaves). unfold cells.
      by rewrite length_fmap.
Qed.

Lemma pipeline_code_table_witness :
  ∃ r n, pipeline (str "abccc") = Done r ∧ run_root r = Some n
    ∧ run_codes r = generateCodes (Some n).
Proof.
  destruct (pipeline_code_table (str "abccc") "a" "b")
    as (r & n & Hr & Hroot & Hcodes & _).
  - vm_compute. discriminate.
  - unfold str. simpl. left.
  - unfold str. simpl. right. left.
  - discriminate.
  - exists r, n. exact (conj Hr (conj Hroot Hcodes)).
Defined.

(** X10.  On any tree whose root is not a leaf, decoding what [encode]
    produced with the tree's own code table returns the input without the
    symbols that are on no leaf, and ends with the cursor on the root; so it
    returns the input itself when every symbol of the input is on a leaf. *)
Theorem decode_encode_filter (n : HuffmanNode) (input : cstring) :
  is_leaf n = false →
  decode_loop (Some n) (Some n) (encode input (generateCodes (Some n))).1 []
  = Done (filter (fun c => c ∈ (leaves n).*1) input, Some n)
  ∧ decode (Some n) (encode input (generateCodes (Some n))).1
    = Done (filter (fun c => c ∈ (leaves n).*1) input)
  ∧ ((∀ c, c ∈ input → c ∈ (leaves n).*1) →
     decode (Some n) (encode input (generateCodes (Some n))).1 = Done input).
Proof.
  intros Hn. pose proof (decode_encode_any n input Hn) as Hdec.
  split; [done|]. unfold decode. rewrite Hdec. split; [done|].
  intros Hall. by rewrite filter_all.
Qed.

Lemma decode_encode_filter_witness :
  decode (Some (mkHuffmanNode "000" 3
                  (Some (newHuffmanNode "x" 1)) (Some (newHuffmanNode "y" 2))))
         (encode (str "xzy")
            (generateCodes
               (Some (mkHuffmanNode "000" 3
                        (Some (newHuffmanNode "x" 1))
                        (Some (newHuffmanNode "y" 2)))))).1
  = Done (str "xy").
Proof.
  destruct (decode_encode_filter
              (mkHuffmanNode "000" 3
                 (Some (newHuffmanNode "x" 1)) (Some (newHuffmanNode "y" 2)))
              (str "xzy")) as (_ & H & _); [reflexivity|].
  exact H.
Defined.

(** X11.  Round trip of the whole pipeline: for every input whose length
    fits an [int] and in which at least two distinct symbols occur, the run
    returns, the decoded string is the input, and the encoded string is the
    sequence of the symbols' codes, made of '0' and '1' only, with at least
    one bit per symbol. *)
Theorem pipeline_roundtrip (input : cstring) (c1 c2 : ascii) :
  Z.of_nat (length input) ≤ INT_MAX →
  c1 ∈ input → c2 ∈ input → c1 ≠ c2 →
  ∃ r, pipeline input = Done r
    ∧ run_decoded r = input
    ∧ run_encoded r = concat_codes (run_codes r) input
    ∧ Forall is_bit (run_encoded r)
    ∧ (length input ≤ length (run_encoded r))%nat.
Proof.
  intros _ H1 H2 Hne.
  destruct (pipeline_run input c1 c2 H1 H2 Hne)
    as (n & Hroot & -> & Hn & Hfull & Hleaves & Hmem).
  eexists. split; [done|]. cbn [run_decoded run_encoded run_codes].
  split; [done|]. split; [done|]. split.
  - apply concat_codes_bits. intros c k Hk%generateCodes_Some.
    by eapply leaf_paths_bits.
  - apply concat_codes_length. intros c Hc.
    destruct (proj2 (generateCodes_dom n c)) as [k Hk]; [by apply Hmem|].
    exists k. split; [done|]. intros ->.
    apply generateCodes_Some in Hk. by apply nonleaf_path_nonempty in Hk.
Qed.

Lemma pipeline_roundtrip_witness :
  ∃ r, pipeline (str "abracadabra") = Done r
    ∧ run_decoded r = str "abracadabra".
Proof.
  destruct (pipeline_roundtrip (str "abracadabra") "a" "b")
    as (r & Hr & Hdec & _).
  - vm_compute. discriminate.
  - unfold str. simpl. left.
  - unfold str. simpl. right. left.
  - discriminate.
  - exists r. exact (conj Hr Hdec).
Defined.

(** X12.  On any tree whose root is not a leaf, [encode] is injective on
    the strings over the symbols of the leaves: two such inputs with the
    same encoded string are the same input. *)
Theorem encode_injective (n : HuffmanNode) (s1 s2 : cstring) :
  is_leaf n = false →
  (∀ c, c ∈ s1 → c ∈ (leaves n).*1) →
  (∀ c, c ∈ s2 → c ∈ (leaves n).*1) →
  (encode s1 (generateCodes (Some n))).1 = (encode s2 (generateCodes (Some n))).1 →
  s1 = s2.
Proof.
  intros Hn Hs1 Hs2 Heq.
  pose proof (decode_encode_any n s1 Hn) as H1.
  pose proof (decode_encode_any n s2 Hn) as H2.
  rewrite Heq, H2 in H1. rewrite !filter_all in H1 by done.
  by simplify_eq.
Qed.

Lemma encode_injective_witness :
  (∀ c, c ∈ str "xy" →
        c ∈ (leaves (mkHuffmanNode "000" 3 (Some (newHuffmanNode "x" 1))
                                   (Some (newHuffmanNode "y" 2)))).*1)
  ∧ str "xy" = str "xy".
Proof.
  assert (∀ c, c ∈ str "xy" →
               c ∈ (leaves (mkHuffmanNode "000" 3 (Some (newHuffmanNode "x" 1))
                                          (Some (newHuffmanNode "y" 2)))).*1)
    as Hin.
  { intros c Hc. exact Hc. }
  split; [exact Hin|].
  apply (encode_injective
           (mkHuffmanNode "000" 3
              (Some (newHuffmanNode "x" 1)) (Some (newHuffmanNode "y" 2)))
           (str "xy") (str "xy")); [reflexivity | exact Hin | exact Hin | reflexivity].
Defined.

(** X13.  For an input with fewer than two distinct symbols (the empty
    input, or one symbol repeated) the tree [buildTree] returns cannot
    decode anything: on every non-empty string [decode] dereferences a null
    pointer, and on the empty string it returns the empty string. *)
Theorem decode_degenerate_tree (c : ascii) (k : nat) (bit : ascii) (rest : cstring) :
  ∃ root, buildTree (feed newFrequencyTable (replicate k c)) = Done root
    ∧ decode root (bit :: rest) = NullDeref
    ∧ decode root [] = Done [].
Proof.
  destruct k as [|k].
  - exists None. by repeat split.
  - destruct (count_char_single c 1 k) as [f Hf].
    exists (Some (newHuffmanNode c f)). split; [|split; [|done]].
    + assert (feed newFrequencyTable (replicate (S k) c)
              = mkFrequencyTable [mkNode c f] (replicate (S k) c)) as ->.
      { unfold feed, MakeTable. simpl. by rewrite <- Hf. }
      reflexivity.
    + unfold decode. rewrite decode_loop_cons. simpl. by case_bool_decide.
Qed.

(** X14.  [decode] never rejects a character: it reads '0' as "left" and
    every other character as "right", so a string decodes exactly as the
    string in which every character that is not '0' is replaced by '1'. *)
Theorem decode_reads_any_char_as_one (root : option HuffmanNode) (encoded : cstring) :
  decode root (as_bit <$> encoded) = decode root encoded
  ∧ Forall is_bit (as_bit <$> encoded).
Proof.
  split.
  - unfold decode. by rewrite decode_loop_as_bit.
  - apply Forall_fmap, Forall_true. intros b. unfold as_bit, is_bit. simpl.
    case_bool_decide; auto.
Qed.

(** X15.  [main] never empties its table: after a first input whose length
    fits an [int] and in which at least two distinct symbols occur, a second
    pass with any input keeps the table and builds the same tree, and what
    it decodes is the second input without the symbols that do not occur in
    the first input. *)
Theorem second_pass_uses_first_table (s1 s2 : cstring) (c1 c2 : ascii) :
  Z.of_nat (length s1) ≤ INT_MAX →
  c1 ∈ s1 → c2 ∈ s1 → c1 ≠ c2 →
  ∃ t1 r1 t2 r2,
    iteration newFrequencyTable s1 = Done (t1, r1)
    ∧ iteration t1 s2 = Done (t2, r2)
    ∧ run_decoded r1 = s1
    ∧ head t2 = head t1
    ∧ run_table r2 = run_table r1
    ∧ run_root r2 = run_root r1
    ∧ run_decoded r2 = filter (fun c => c ∈ s1) s2.
Proof.
  intros _ H1 H2 Hne.
  destruct (buildTree_two_symbols s1 c1 c2 H1 H2 Hne)
    as (n & Hroot & Hn & Hfull & Hnd & Hmem).
  assert (s1 ≠ []) as Hs1 by (intros ->; by apply elem_of_nil in H1).
  destruct (feed_nonempty s1 Hs1) as [_ Hpop].
  assert (head (feed (feed newFrequencyTable s1) s2)
          = head (feed newFrequencyTable s1)) as Hhead
    by by apply feed_populated.
  assert (buildTree (feed (feed newFrequencyTable s1) s2) = Done (Some n))
    as Hroot2 by by rewrite (buildTree_head _ _ Hhead).
  eexists _, _, _, _.
  split; [by apply iteration_on_tree|].
  split; [by apply iteration_on_tree|].
  cbn [run_decoded run_table run_root].
  split; [apply filter_all; intros c Hc; by apply Hmem|].
  split; [done|]. split; [done|]. split; [done|].
  apply list_filter_iff. intros c. apply Hmem.
Qed.

Lemma second_pass_uses_first_table_witness :
  ∃ t1 r1 t2 r2,
    iteration newFrequencyTable (str "ab") = Done (t1, r1)
    ∧ iteration t1 (str "cab") = Done (t2, r2)
    ∧ run_decoded r1 = str "ab".
Proof.
  destruct (second_pass_uses_first_table (str "ab") (str "cab") "a" "b")
    as (t1 & r1 & t2 & r2 & Hr1 & Hr2 & Hd & _).
  - vm_compute. discriminate.
  - unfold str. simpl. left.
  - unfold str. simpl. right. left.
  - discriminate.
  - exists t1, r1, t2, r2. exact (conj Hr1 (conj Hr2 Hd)).
Defined.

(** ** The displayed table *)

Lemma TotalFreq_total (cells : list Node) :
  Forall (fun n => 1 ≤ getFreq n) cells →
  total (getFreq <$> cells) ≤ INT_MAX →
  TotalFreq cells = total (getFreq <$> cells).
Proof.
  unfold TotalFreq. intros Hpos Hmax.
  assert (∀ acc, 0 ≤ acc → acc + total (getFreq <$> cells) ≤ INT_MAX →
            foldl (fun acc p => int_add acc (getFreq p)) acc cells
            = acc + total (getFreq <$> cells)) as H.
  { clear Hmax. induction Hpos as [|n l Hn Hl IH]; intros acc Hacc Hmax.
    - simpl. unfold total. simpl. lia.
    - pose proof (total_nonneg _ (counts_nonneg l Hl)).
      rewrite fmap_cons, total_cons in Hmax |- *. simpl.
      unfold int_add at 2. rewrite wrap_small by (unfold INT_MIN; lia).
      rewrite IH by lia. lia. }
  rewrite H by lia. lia.
Qed.

Lemma DisplayTable_populated (t : FrequencyTable) :
  head t ≠ [] →
  DisplayTable t
  = setw_left 15 (str "Character") ++ setw_left 15 (str "Frequency") ++ endl
    ++ dashes 30 ++ endl
    ++ mjoin (display_row <$> head t)
    ++ dashes 30 ++ endl
    ++ setw_left 15 (str "Total") ++ setw_left 15 (show_int (TotalFreq (head t)))
    ++ endl.
Proof. unfold DisplayTable. by destruct (head t). Qed.

(** X16.  For a non-empty input whose length fits an [int], what
    [DisplayTable] prints after [MakeTable] is: the header, one line per
    distinct symbol in first-occurrence order showing the symbol and the
    number of its occurrences, and a "Total" line showing the length of the
    input.  On a table that holds nothing it prints "Frequency table is
    empty." instead. *)
Theorem DisplayTable_after_MakeTable (s : cstring) :
  s ≠ [] → Z.of_nat (length s) ≤ INT_MAX →
  DisplayTable (feed newFrequencyTable s)
  = setw_left 15 (str "Character") ++ setw_left 15 (str "Frequency") ++ endl
    ++ dashes 30 ++ endl
    ++ mjoin ((fun c => setw_left 15 [c]
                        ++ setw_left 15 (show_int (occurrences c s)) ++ endl)
              <$> first_seen s)
    ++ dashes 30 ++ endl
    ++ setw_left 15 (str "Total")
    ++ setw_left 15 (show_int (Z.of_nat (length s))) ++ endl
  ∧ DisplayTable (feed newFrequencyTable []) = msg_table_empty.
Proof.
  intros Hs Hlen. split; [|reflexivity].
  destruct (foldl_count_char_total s []) as [Hpos Htotal]; [constructor | done |].
  rewrite <- feed_new_head in Hpos, Htotal.
  rewrite DisplayTable_populated
    by (rewrite feed_new_head; by apply foldl_count_char_nonempty).
  rewrite TotalFreq_total by (done || (rewrite Htotal; done)).
  rewrite Htotal. replace (total (getFreq <$> []) + Z.of_nat (length s))
    with (Z.of_nat (length s)) by (unfold total; simpl; lia).
  rewrite (feed_counts s Hlen), <- list_fmap_compose. done.
Qed.

Lemma DisplayTable_after_MakeTable_witness :
  DisplayTable (feed newFrequencyTable (str "abab"))
  = str "Character      Frequency      
------------------------------
a              2              
b              2              
------------------------------
Total          4              
".
Proof.
  destruct (DisplayTable_after_MakeTable (str "abab")) as [H _].
  - discriminate.
  - vm_compute. discriminate.
  - rewrite H. reflexivity.
Defined.

(** ** The menu choice *)

Section menu_choice.
Implicit Types (c d : ascii) (s ws ds zeros : cstring).

Lemma digits_split s :
  s = digits_of s ++ after_digits s
  ∧ Forall (fun c => isdigit c = true) (digits_of s).
Proof.
  induction s as [|c s [IH1 IH2]]; [by split|]. simpl.
  destruct (isdigit c) eqn:Hc; [|by split].
  split; [simpl; by rewrite <- IH1 | by constructor].
Qed.

Lemma digits_of_all ds :
  Forall (fun c => isdigit c = true) ds →
  digits_of ds = ds ∧ after_digits ds = [].
Proof.
  induction 1 as [|c ds Hc _ [IH1 IH2]]; [done|]. simpl.
  rewrite Hc. by rewrite IH1, IH2.
Qed.

Lemma skip_ws_split s :
  ∃ ws, s = ws ++ skip_ws s ∧ Forall (fun c => isspace c = true) ws.
Proof.
  induction s as [|c s (ws & IH1 & IH2)]; [by exists []|]. simpl.
  destruct (isspace c) eqn:Hc; [|by exists []].
  exists (c :: ws). split; [simpl; by rewrite <- IH1 | by constructor].
Qed.

Lemma skip_ws_app ws s :
  Forall (fun c => isspace c = true) ws → skip_ws (ws ++ s) = skip_ws s.
Proof. induction 1 as [|c ws Hc _ IH]; [done|]. simpl. by rewrite Hc. Qed.

Lemma isdigit_cases d :
  isdigit d = true →
  d ∈ ["0"%char; "1"%char; "2"%char; "3"%char; "4"%char;
       "5"%char; "6"%char; "7"%char; "8"%char; "9"%char].
Proof. unfold isdigit. by intros ?%bool_decide_eq_true. Qed.

Lemma digit_value_range d : isdigit d = true → 0 ≤ digit_value d ≤ 9.
Proof.
  intros Hd%isdigit_cases.
  repeat (apply elem_of_cons in Hd as [->|Hd]; [by vm_compute|]).
  by apply elem_of_nil in Hd.
Qed.

Lemma digit_value_small d :
  isdigit d = true →
  (digit_value d = 0 → d = "0"%char)
  ∧ (digit_value d = 1 → d = "1"%char)
  ∧ (digit_value d = 2 → d = "2"%char).
Proof.
  intros Hd%isdigit_cases.
  repeat (apply elem_of_cons in Hd as [->|Hd];
          [by repeat split; vm_compute; intros ?|]).
  by apply elem_of_nil in Hd.
Qed.

Lemma decimal_snoc ds d : decimal (ds ++ [d]) = 10 * decimal ds + digit_value d.
Proof. unfold decimal. by rewrite foldl_snoc. Qed.

Lemma decimal_nonneg ds :
  Forall (fun c => isdigit c = true) ds → 0 ≤ decimal ds.
Proof.
  induction ds as [|d ds IH] using rev_ind; intros H; [done|].
  apply Forall_app in H as [Hds Hd]. rewrite Forall_singleton in Hd.
  rewrite decimal_snoc. pose proof (digit_value_range d Hd).
  specialize (IH Hds). lia.
Qed.

Lemma decimal_zero ds :
  Forall (fun c => isdigit c = true) ds →
  decimal ds = 0 ↔ Forall (fun c => c = "0"%char) ds.
Proof.
  induction ds as [|d ds IH] using rev_ind; intros H; [by split|].
  apply Forall_app in H as [Hds Hd]. rewrite Forall_singleton in Hd.
  rewrite decimal_snoc, Forall_app, Forall_singleton.
  pose proof (digit_value_range d Hd). pose proof (decimal_nonneg ds Hds).
  destruct (digit_value_small d Hd) as (Hzero & _). split.
  - intros Hz. split; [apply IH; [done | lia] | apply Hzero; lia].
  - intros [Hz ->]. apply IH in Hz; [|done]. rewrite Hz. by vm_compute.
Qed.

Lemma decimal_one_or_two ds v :
  Forall (fun c => isdigit c = true) ds → v = 1 ∨ v = 2 →
  decimal ds = v ↔
  ∃ zeros d, ds = zeros ++ [d] ∧ Forall (fun c => c = "0"%char) zeros
             ∧ isdigit d = true ∧ digit_value d = v.
Proof.
  intros Hds Hv. split.
  - destruct ds as [|d ds _] using rev_ind; [unfold decimal; simpl; lia|].
    apply Forall_app in Hds as [Hds Hd]. rewrite Forall_singleton in Hd.
    rewrite decimal_snoc. intros Hdec.
    pose proof (digit_value_range d Hd). pose proof (decimal_nonneg ds Hds).
    exists ds, d. split; [done|]. split; [|split; [done | lia]].
    apply decimal_zero; [done | lia].
  - intros (zeros & d & -> & Hz & Hd & Hval).
    apply Forall_app in Hds as [Hds _].
    rewrite decimal_snoc. apply decimal_zero in Hz; [|done]. lia.
Qed.

Lemma extract_digits_accepted negative body :
  negb (failbit (extract_digits negative body))
  && eofbit (extract_digits negative body)
  && (bool_decide (num (extract_digits negative body) = 1)
      || bool_decide (num (extract_digits negative body) = 2)) = true
  ↔ negative = false
    ∧ ∃ zeros d, body = zeros ++ [d]
        ∧ Forall (fun c => c = "0"%char) zeros
        ∧ (d = "1"%char ∨ d = "2"%char).
Proof.
  destruct (digits_split body) as [Hsplit Hdigits].
  pose proof (decimal_nonneg _ Hdigits) as Hnn.
  split.
  - unfold extract_digits.
    case_bool_decide as Hnil; [done|].
    case_bool_decide as Hmin; [done|].
    case_bool_decide as Hmax; [done|]. simpl.
    intros [Heof Hnum]%andb_true_iff.
    apply bool_decide_eq_true in Heof.
    rewrite Heof, app_nil_r in Hsplit.
    apply orb_true_iff in Hnum.
    rewrite !bool_decide_eq_true in Hnum.
    destruct negative; [lia|]. split; [done|].
    assert (∃ v, (v = 1 ∨ v = 2) ∧ decimal (digits_of body) = v)
      as (v & Hv & Hdec) by (destruct Hnum; eauto).
    apply decimal_one_or_two in Hdec as (zeros & d & Hds & Hz & Hd & Hval);
      [|done..].
    exists zeros, d. split; [congruence|]. split; [done|].
    destruct (digit_value_small d Hd) as (_ & H1 & H2).
    destruct Hv; subst v; auto.
  - intros (-> & zeros & d & -> & Hz & Hd).
    assert (Forall (fun c => isdigit c = true) (zeros ++ [d])) as Hall.
    { apply Forall_app. split.
      - eapply Forall_impl; [exact Hz|]. by intros c ->.
      - apply Forall_singleton. by destruct Hd as [-> | ->]. }
    destruct (digits_of_all _ Hall) as [Hds Hrest].
    assert (decimal (zeros ++ [d]) = digit_value d) as Hdec.
    { rewrite decimal_snoc.
      apply decimal_zero in Hz; [lia|].
      eapply Forall_impl; [exact Hz|]. by intros c ->. }
    unfold extract_digits. rewrite Hds, Hrest, Hdec.
    rewrite bool_decide_eq_false_2 by by destruct zeros.
    destruct Hd as [-> | ->]; reflexivity.
Qed.

End menu_choice.

(** X17.  [isValidChoice] accepts exactly the lines that consist of optional
    leading white space, an optional plus sign, any number of zeros and then
    the digit 1 or the digit 2, with nothing after it. *)
Theorem isValidChoice_accepts (choice : cstring) :
  isValidChoice choice = true ↔
  ∃ ws plus zeros d,
    choice = ws ++ plus ++ zeros ++ [d]
    ∧ Forall (fun c => isspace c = true) ws
    ∧ (plus = [] ∨ plus = ["+"%char])
    ∧ Forall (fun c => c = "0"%char) zeros
    ∧ (d = "1"%char ∨ d = "2"%char).
Proof.
  unfold isValidChoice. cbv zeta. split.
  - destruct (skip_ws_split choice) as (ws & Hsplit & Hws).
    unfold extract_int. destruct (skip_ws choice) as [|c s'] eqn:Hskip; [done|].
    case_bool_decide as Hminus.
    { intros [? _]%extract_digits_accepted. done. }
    case_bool_decide as Hplus.
    + intros [_ (zeros & d & -> & Hz & Hd)]%extract_digits_accepted.
      exists ws, ["+"%char], zeros, d. subst c.
      split; [done|]. split; [done|]. split; [by right|].
      split; [exact Hz | exact Hd].
    + intros [_ (zeros & d & Hbody & Hz & Hd)]%extract_digits_accepted.
      exists ws, [], zeros, d. rewrite Hsplit, Hbody.
      split; [done|]. split; [done|]. split; [by left|].
      split; [exact Hz | exact Hd].
  - intros (ws & plus & zeros & d & -> & Hws & Hplus & Hz & Hd).
    unfold extract_int. rewrite skip_ws_app by done.
    assert (isspace d = false) as Hd' by by destruct Hd as [-> | ->].
    destruct Hplus as [-> | ->]; simpl.
    + assert (∃ c s', zeros ++ [d] = c :: s' ∧ isspace c = false
                      ∧ c ≠ "-"%char ∧ c ≠ "+"%char) as (c & s' & E & Hc & ? & ?).
      { destruct zeros as [|z zeros].
        - exists d, []. by destruct Hd as [-> | ->].
        - apply Forall_cons in Hz as [-> _]. by eexists _, _. }
      rewrite E. simpl. rewrite Hc.
      rewrite !bool_decide_eq_false_2 by done. rewrite <- E.
      apply extract_digits_accepted. split; [done|]. exists zeros, d.
      split; [done|]. split; [exact Hz | exact Hd].
    + apply extract_digits_accepted. split; [done|]. exists zeros, d.
      split; [done|]. split; [exact Hz | exact Hd].
Qed.
